(** * Badge-check queueing simulation (main.py): model and properties

    The script drives a SimPy discrete-event simulation: a generator
    process [setup] spawns [employee] processes, each of which requests a
    slot of a capacity-bounded [simpy.Resource], records two samples once
    the slot is granted, holds it for a sampled service time and releases
    it.  The module-level loop runs one simulation per machine count and
    reduces the samples to four metrics.

    SimPy is a library the script imports.  The parts of it the script
    exercises are modelled after the library: the event heap ordered by
    (time, priority, event id), processes resumed by the callbacks of the
    events they yield, [Environment.run(until)], and the FIFO
    [Resource] with its [users] list and put queue.  Generators are
    represented by their suspension points.

    Times and metrics are Python floats; they are modelled as exact
    rationals ([Q]).  The module-level generator of [random] is modelled as
    an explicit stream of draws with a read position. *)

From Stdlib Require Import QArith ZArith List Lia Bool Arith PeanoNat.
From Stdlib Require Import Permutation Sorted Lqa.
Import ListNotations.

Close Scope Q_scope.

(** * Part I: the program *)

(** ** Parameters (main.py, lines 6-10) *)

Definition EXPECTED_EMPLOYEES : nat := 1000.
Definition PEAK_ARRIVAL_RATE : Q := 1 # 2.
Definition LOW_ARRIVAL_RATE : Q := 1 # 20.
Definition SERVICE_RATE : Q := 1 # 12.
Definition SIMULATION_DURATION : Q := 3600 # 1.

(** ** The random module

    One call of [random.random()] yields a variate [u01] in [0,1).
    [expovariate(lambd)] is [-log(1 - random()) / lambd] and
    [uniform(a, b)] is [a + (b - a) * random()].  A draw carries the
    variate and the value [-log(1 - u01)], which is not rational in
    general and is therefore supplied by the stream. *)

Record Draw := mkDraw { u01 : Q; nlog : Q }.

Record Random := mkRandom { stream : nat -> Draw; pos : nat }.

Definition advance (r : Random) : Random := mkRandom (stream r) (S (pos r)).

Definition expovariate (lambd : Q) (r : Random) : Q * Random :=
  ((nlog (stream r (pos r)) / lambd)%Q, advance r).

Definition uniform (a b : Q) (r : Random) : Q * Random :=
  ((a + (b - a) * u01 (stream r (pos r)))%Q, advance r).

(** What the real generator guarantees of every draw. *)
Definition draw_ok (d : Draw) : Prop := (0 <= u01 d)%Q /\ (0 <= nlog d)%Q.

Definition stream_ok (r : Random) : Prop := forall n, draw_ok (stream r n).

(** ** Suspended generators

    Every event of the program has exactly one interesting callback: the
    [_resume] of the process that yielded it, the resource's [_trigger_put]
    (for a [Release]), or the stop callback of the [until] event.  A
    callback that resumes a generator is represented by the suspension
    point together with the generator's live local variables. *)

Inductive Callback :=
| SetupStart
    (* Initialize event of [setup]: the generator has not started *)
| SetupResume (employee_count : nat)
    (* [setup] suspended at line 49 on the inter-arrival timeout *)
| EmployeeStart (name : nat)
    (* Initialize event of [employee]: the generator has not started *)
| EmployeeGranted (name : nat) (arrival_time : Q)
    (* [employee] suspended at line 25 on its request *)
| EmployeeServed (name : nat)
    (* [employee] suspended at line 30 on the service timeout *)
| TriggerPut
    (* a Release event: its callback is the resource's [_trigger_put] *)
| ProcessDone
    (* the event of a generator that returned: nobody waits for it *)
| StopSimulation.
    (* the [until] event of [env.run] *)

(** ** simpy.Environment: clock and event queue *)

Inductive Priority := URGENT | NORMAL.

Definition priority_num (p : Priority) : nat :=
  match p with URGENT => 0 | NORMAL => 1 end.

(** An entry of the event heap: the tuple [(time, priority, eid, event)]. *)
Record Entry := mkEntry
  { at_time : Q; priority : Priority; entry_id : nat; callback : Callback }.

(** Tuple comparison on the first three components. *)
Definition entry_lt (a b : Entry) : bool :=
  match (at_time a ?= at_time b)%Q with
  | Lt => true
  | Gt => false
  | Eq =>
      match Nat.compare (priority_num (priority a)) (priority_num (priority b)) with
      | Lt => true
      | Gt => false
      | Eq => entry_id a <? entry_id b
      end
  end.

(** [heapq] always pops the least tuple.  The heap is kept as a list in
    ascending order, so that popping takes the head. *)
Fixpoint heappush (e : Entry) (h : list Entry) : list Entry :=
  match h with
  | [] => [e]
  | x :: h' => if entry_lt e x then e :: x :: h' else x :: heappush e h'
  end.

Record Environment := mkEnv
  { now : Q; next_eid : nat; env_queue : list Entry }.

(** [Environment.schedule(event, priority, delay)]. *)
Definition schedule (cb : Callback) (p : Priority) (delay : Q)
  (e : Environment) : Environment :=
  mkEnv (now e) (S (next_eid e))
        (heappush (mkEntry (now e + delay)%Q p (next_eid e) cb) (env_queue e)).

(** ** simpy.Resource

    A request stands for the [Request] event together with the process
    suspended on it (its name and its local [arrival_time]). *)

Record Request := mkRequest { req_name : nat; req_arrival : Q }.

Record Resource := mkResource
  { capacity : nat; users : list Request; put_queue : list Request }.

(** [list.remove]: drops the first occurrence, does nothing when absent
    (the ValueError is swallowed by [_do_get]). *)
Fixpoint remove_user (name : nat) (l : list Request) : list Request :=
  match l with
  | [] => []
  | r :: l' => if req_name r =? name then l' else r :: remove_user name l'
  end.

(** ** Observations

    A log of what happened, in order.  It is not program state: no
    transition reads it. *)

Inductive Obs :=
| Spawned (name : nat) (t : Q)
| Requested (name : nat) (t : Q) (ahead : nat)
    (* the process started and joined the queue behind [ahead] requests *)
| Granted (name : nat) (t : Q)
| Sampled (name : nat) (wait_time : Q) (queue_length : nat)
| Departed (name : nat) (t : Q).

(** ** State of one scenario run *)

Record Sim := mkSim
  { env : Environment;
    machine : Resource;
    rnd : Random;
    wait_times : list Q;
    queue_lengths : list nat;
    served_count : nat;
    trace : list Obs }.

Definition set_env (e : Environment) (s : Sim) : Sim :=
  mkSim e (machine s) (rnd s) (wait_times s) (queue_lengths s)
        (served_count s) (trace s).

Definition set_machine (m : Resource) (s : Sim) : Sim :=
  mkSim (env s) m (rnd s) (wait_times s) (queue_lengths s)
        (served_count s) (trace s).

Definition set_rnd (r : Random) (s : Sim) : Sim :=
  mkSim (env s) (machine s) r (wait_times s) (queue_lengths s)
        (served_count s) (trace s).

Definition record_sample (w : Q) (q : nat) (s : Sim) : Sim :=
  mkSim (env s) (machine s) (rnd s) (wait_times s ++ [w])
        (queue_lengths s ++ [q]) (served_count s) (trace s).

Definition incr_served (s : Sim) : Sim :=
  mkSim (env s) (machine s) (rnd s) (wait_times s) (queue_lengths s)
        (S (served_count s)) (trace s).

Definition observe (o : Obs) (s : Sim) : Sim :=
  mkSim (env s) (machine s) (rnd s) (wait_times s) (queue_lengths s)
        (served_count s) (trace s ++ [o]).

(** [event.succeed()] and process start-up both schedule with delay 0. *)
Definition sched (cb : Callback) (p : Priority) (delay : Q) (s : Sim) : Sim :=
  set_env (schedule cb p delay (env s)) s.

(** [env.timeout(delay)]: a negative delay raises ValueError. *)
Definition timeout (delay : Q) (cb : Callback) (s : Sim) : option Sim :=
  if Qle_bool 0 delay then Some (sched cb NORMAL delay s) else None.

(** [BaseResource._trigger_put]: [Resource._do_put] returns None, so the
    loop looks at the head of the queue only.  The head is granted when a
    slot is free: it joins [users], its event succeeds and it leaves the
    queue. *)
Definition trigger_put (s : Sim) : Sim :=
  match put_queue (machine s) with
  | [] => s
  | req :: rest =>
      if length (users (machine s)) <? capacity (machine s) then
        let m := mkResource (capacity (machine s))
                            (users (machine s) ++ [req]) rest in
        sched (EmployeeGranted (req_name req) (req_arrival req)) NORMAL 0
              (observe (Granted (req_name req) (now (env s)))
                       (set_machine m s))
      else s
  end.

(** [machine.request()]: the request joins the queue and the resource
    looks at the head of the queue. *)
Definition request (req : Request) (s : Sim) : Sim :=
  let m := mkResource (capacity (machine s)) (users (machine s))
                      (put_queue (machine s) ++ [req]) in
  trigger_put (set_machine m s).

(** [machine.release(req)], called when the [with] block is left: the
    request leaves [users] and the Release event succeeds.  The waiting
    head is looked at when that event is dispatched. *)
Definition release (name : nat) (s : Sim) : Sim :=
  let m := mkResource (capacity (machine s))
                      (remove_user name (users (machine s)))
                      (put_queue (machine s)) in
  sched TriggerPut NORMAL 0 (set_machine m s).

(** ** The generators *)

(** employee, lines 23-25: up to the first [yield]. *)
Definition employee_start (name : nat) (s : Sim) : Sim :=
  let arrival_time := now (env s) in
  request (mkRequest name arrival_time)
          (observe (Requested name arrival_time
                              (length (put_queue (machine s)))) s).

(** employee, lines 26-30: from the grant to the service timeout. *)
Definition employee_granted (name : nat) (arrival_time : Q) (s : Sim)
  : option Sim :=
  let wait_time := (now (env s) - arrival_time)%Q in
  let qlen := length (put_queue (machine s)) in
  let s1 := observe (Sampled name wait_time qlen)
                    (record_sample wait_time qlen s) in
  let (e, r1) := expovariate SERVICE_RATE (rnd s1) in
  let (u, r2) := uniform (4 # 5) (6 # 5) r1 in
  timeout (e * u)%Q (EmployeeServed name) (set_rnd r2 s1).

(** employee, line 31 and the exit of the [with] block; the generator
    then returns and its process event is scheduled. *)
Definition employee_served (name : nat) (s : Sim) : Sim :=
  sched ProcessDone NORMAL 0
        (release name
                 (observe (Departed name (now (env s))) (incr_served s))).

(** setup, lines 41-46. *)
Definition arrival_rate_at (current_time : Q) : Q :=
  if Qle_bool 0 current_time && negb (Qle_bool 1200 current_time) then
    LOW_ARRIVAL_RATE
  else if Qle_bool 1200 current_time && negb (Qle_bool 2400 current_time) then
    PEAK_ARRIVAL_RATE
  else LOW_ARRIVAL_RATE.

(** setup, lines 38-49: the loop test and the body up to the [yield]. *)
Definition setup_loop (employee_count : nat) (s : Sim) : option Sim :=
  if employee_count <? EXPECTED_EMPLOYEES then
    let (gap, r1) := expovariate (arrival_rate_at (now (env s))) (rnd s) in
    timeout gap (SetupResume employee_count) (set_rnd r1 s)
  else Some (sched ProcessDone NORMAL 0 s).

(** setup, lines 35-36: [simpy.Resource] refuses a capacity that is not
    positive. *)
Definition setup_start (s : Sim) : option Sim :=
  if 0 <? capacity (machine s) then setup_loop 0 s else None.

(** setup, lines 50-51 and back to the loop test. *)
Definition setup_resume (employee_count : nat) (s : Sim) : option Sim :=
  let employee_count := S employee_count in
  setup_loop employee_count
    (sched (EmployeeStart employee_count) URGENT 0
           (observe (Spawned employee_count (now (env s))) s)).

(** ** Environment.step and Environment.run *)

Inductive Outcome :=
| Next (s : Sim)          (* an event was dispatched *)
| Stop (s : Sim)          (* the [until] event was dispatched *)
| EmptySchedule           (* no event left *)
| ValueError.             (* an exception left a process *)

Definition of_option (o : option Sim) : Outcome :=
  match o with Some s => Next s | None => ValueError end.

Definition dispatch (cb : Callback) (s : Sim) : Outcome :=
  match cb with
  | SetupStart => of_option (setup_start s)
  | SetupResume c => of_option (setup_resume c s)
  | EmployeeStart n => Next (employee_start n s)
  | EmployeeGranted n a => of_option (employee_granted n a s)
  | EmployeeServed n => Next (employee_served n s)
  | TriggerPut => Next (trigger_put s)
  | ProcessDone => Next s
  | StopSimulation => Stop s
  end.

(** [Environment.step]: pop the least entry, set the clock to its time and
    run its callback. *)
Definition step (s : Sim) : Outcome :=
  match env_queue (env s) with
  | [] => EmptySchedule
  | e :: rest =>
      dispatch (callback e)
               (set_env (mkEnv (at_time e) (next_eid (env s)) rest) s)
  end.

Inductive RunResult :=
| Finished (s : Sim)
| Failed
| OutOfFuel.

Fixpoint run (fuel : nat) (s : Sim) : RunResult :=
  match fuel with
  | O => OutOfFuel
  | S fuel' =>
      match step s with
      | Next s' => run fuel' s'
      | Stop s' => Finished s'
      | EmptySchedule => Failed
      | ValueError => Failed
      end
  end.

(** Lines 56-63: a fresh environment and fresh sample lists; the setup
    process is created, then [env.run(until=SIMULATION_DURATION)]
    schedules the [until] event ahead of every other event of its time.
    The resource, which [setup] creates when it starts (line 35), is in
    the state from the beginning: nothing touches it earlier. *)
Definition initial (num_machines : nat) (r : Random) : Sim :=
  let s0 := mkSim (mkEnv 0 0 []) (mkResource num_machines [] []) r [] [] 0 [] in
  sched StopSimulation URGENT (SIMULATION_DURATION - now (env s0))
        (sched SetupStart URGENT 0 s0).

(** A bound on the number of dispatches of one run: the generator wakes
    up at most [EXPECTED_EMPLOYEES] times and every entity causes at most
    five dispatches ([env_run_total] shows that it is never exhausted). *)
Definition RUN_BUDGET : nat := 6 * EXPECTED_EMPLOYEES + 10.

(** [env.run(until=SIMULATION_DURATION)]. *)
Definition env_run (s : Sim) : RunResult := run RUN_BUDGET s.

(** The points of a run: the state after [n] dispatched events, and
    whether the [until] event has been reached. *)
Inductive Status := Running | Halted.

Definition advance_run (p : Status * Sim) : option (Status * Sim) :=
  match p with
  | (Halted, _) => None
  | (Running, s) =>
      match step s with
      | Next s' => Some (Running, s')
      | Stop s' => Some (Halted, s')
      | EmptySchedule => None
      | ValueError => None
      end
  end.

Fixpoint after (n : nat) (s0 : Sim) : option (Status * Sim) :=
  match n with
  | O => Some (Running, s0)
  | S n' =>
      match after n' s0 with
      | Some p => advance_run p
      | None => None
      end
  end.

(** ** The module-level loop (main.py, lines 13-19 and 54-76) *)

Definition Q_of_nat (n : nat) : Q := inject_Z (Z.of_nat n).

(** Python's [sum]: left to right, starting from 0. *)
Definition sum (l : list Q) : Q := fold_left Qplus l 0%Q.

Definition sum_int (l : list nat) : nat := fold_left Nat.add l 0.

(** Lines 66-69. *)
Definition avg_wait_time (wait_times : list Q) : Q :=
  match wait_times with
  | [] => 0
  | _ :: _ => sum wait_times / Q_of_nat (length wait_times)
  end.

Definition avg_queue_length (queue_lengths : list nat) : Q :=
  match queue_lengths with
  | [] => 0
  | _ :: _ => Q_of_nat (sum_int queue_lengths) / Q_of_nat (length queue_lengths)
  end.

Definition utilization (wait_times : list Q) (num_machines : nat) : Q :=
  Q_of_nat (length wait_times)
  / (SIMULATION_DURATION * Q_of_nat num_machines) * SERVICE_RATE.

Definition throughput (served_count : nat) : Q :=
  Q_of_nat served_count / SIMULATION_DURATION.

(** The five lists of the [results] dictionary. *)
Record Results := mkResults
  { res_num_machines : list nat;
    res_wait_times : list Q;
    res_queue_lengths : list Q;
    res_utilization : list Q;
    res_throughput : list Q }.

Definition no_results : Results := mkResults [] [] [] [] [].

(** The values one scenario appends (lines 66-69 and 72-76). *)
Record Report := mkReport
  { rep_num_machines : nat;
    rep_wait_time : Q;
    rep_queue_length : Q;
    rep_utilization : Q;
    rep_throughput : Q }.

Definition report (num_machines : nat) (s : Sim) : Report :=
  mkReport num_machines
           (avg_wait_time (wait_times s))
           (avg_queue_length (queue_lengths s))
           (utilization (wait_times s) num_machines)
           (throughput (served_count s)).

Definition store (p : Report) (res : Results) : Results :=
  mkResults (res_num_machines res ++ [rep_num_machines p])
            (res_wait_times res ++ [rep_wait_time p])
            (res_queue_lengths res ++ [rep_queue_length p])
            (res_utilization res ++ [rep_utilization p])
            (res_throughput res ++ [rep_throughput p]).

(** Lines 56-63: one run on the current state of the random module.  An
    exception ends the script, so nothing is produced. *)
Definition simulate (num_machines : nat) (r : Random) : option Sim :=
  match env_run (initial num_machines r) with
  | Finished s => Some s
  | Failed => None
  | OutOfFuel => None
  end.

(** State that outlives one iteration of the loop: the generator of the
    random module and the [results] dictionary. *)
Record Globals := mkGlobals { random : Random; results : Results }.

Definition scenario (num_machines : nat) (g : Globals) : option Globals :=
  match simulate num_machines (random g) with
  | Some s => Some (mkGlobals (rnd s) (store (report num_machines s) (results g)))
  | None => None
  end.

Fixpoint sweep (configs : list nat) (g : Globals) : option Globals :=
  match configs with
  | [] => Some g
  | num_machines :: rest =>
      match scenario num_machines g with
      | Some g' => sweep rest g'
      | None => None
      end
  end.

Definition main (r : Random) : option Globals :=
  sweep [1; 3; 5; 7; 10] (mkGlobals r no_results).

(** ** The names the loop body binds (main.py, lines 54-76)

    [num_machines], [env], [wait_times], [queue_lengths] and
    [served_count] are names of the module: an iteration of the loop
    finds them as the iteration before left them (unbound before the
    first one), binds them (lines 54-59) and reads them back when it
    starts [setup], runs the environment and computes the metrics
    (lines 62-69).  What they are bound to is mutated by the run.
    [Globals] above keeps of the module what [scenario] uses;
    [Namespace] keeps all that the loop body touches. *)

Record Namespace := mkNamespace
  { ns_random : Random;
    ns_results : Results;
    ns_num_machines : option nat;
    ns_env : option Environment;
    ns_wait_times : option (list Q);
    ns_queue_lengths : option (list nat);
    ns_served_count : option nat }.

Definition bind_num_machines (c : nat) (ns : Namespace) : Namespace :=
  mkNamespace (ns_random ns) (ns_results ns) (Some c) (ns_env ns)
              (ns_wait_times ns) (ns_queue_lengths ns) (ns_served_count ns).

Definition bind_env (e : Environment) (ns : Namespace) : Namespace :=
  mkNamespace (ns_random ns) (ns_results ns) (ns_num_machines ns) (Some e)
              (ns_wait_times ns) (ns_queue_lengths ns) (ns_served_count ns).

Definition bind_wait_times (l : list Q) (ns : Namespace) : Namespace :=
  mkNamespace (ns_random ns) (ns_results ns) (ns_num_machines ns) (ns_env ns)
              (Some l) (ns_queue_lengths ns) (ns_served_count ns).

Definition bind_queue_lengths (l : list nat) (ns : Namespace) : Namespace :=
  mkNamespace (ns_random ns) (ns_results ns) (ns_num_machines ns) (ns_env ns)
              (ns_wait_times ns) (Some l) (ns_served_count ns).

Definition bind_served_count (n : nat) (ns : Namespace) : Namespace :=
  mkNamespace (ns_random ns) (ns_results ns) (ns_num_machines ns) (ns_env ns)
              (ns_wait_times ns) (ns_queue_lengths ns) (Some n).

(** Lines 62-63 on given objects: the setup process is created on the
    environment, then [env.run(until=SIMULATION_DURATION)] refuses a
    horizon that is not ahead of the environment's clock (ValueError) and
    otherwise schedules the [until] event. *)
Definition launch (num_machines : nat) (e : Environment) (r : Random)
  (wait_times : list Q) (queue_lengths : list nat) (served_count : nat)
  : option Sim :=
  let s0 := mkSim e (mkResource num_machines [] []) r
                  wait_times queue_lengths served_count [] in
  let s1 := sched SetupStart URGENT 0 s0 in
  if Qle_bool SIMULATION_DURATION (now e) then None
  else Some (sched StopSimulation URGENT (SIMULATION_DURATION - now e) s1).

(** Lines 62-76: the names are read (an unbound one raises NameError),
    the run mutates what they are bound to, and the metrics are
    appended. *)
Definition run_and_store (ns : Namespace) : option Namespace :=
  match ns_num_machines ns, ns_env ns, ns_wait_times ns,
        ns_queue_lengths ns, ns_served_count ns with
  | Some c, Some e, Some wt, Some ql, Some sc =>
      match launch c e (ns_random ns) wt ql sc with
      | Some s0 =>
          match env_run s0 with
          | Finished s =>
              Some (mkNamespace (rnd s)
                                (store (report c s) (ns_results ns))
                                (Some c) (Some (env s))
                                (Some (wait_times s))
                                (Some (queue_lengths s))
                                (Some (served_count s)))
          | Failed => None
          | OutOfFuel => None
          end
      | None => None
      end
  | _, _, _, _, _ => None
  end.

(** One iteration of the loop, lines 54-76. *)
Definition loop_body (num_machines : nat) (ns : Namespace)
  : option Namespace :=
  run_and_store
    (bind_served_count 0                         (* line 59 *)
       (bind_queue_lengths []                    (* line 58 *)
          (bind_wait_times []                    (* line 57 *)
             (bind_env (mkEnv 0 0 [])            (* line 56 *)
                (bind_num_machines num_machines ns))))).

Fixpoint loop (configs : list nat) (ns : Namespace) : option Namespace :=
  match configs with
  | [] => Some ns
  | num_machines :: rest =>
      match loop_body num_machines ns with
      | Some ns' => loop rest ns'
      | None => None
      end
  end.

(** The module before the loop: only [random] and [results] exist. *)
Definition at_import (r : Random) : Namespace :=
  mkNamespace r no_results None None None None None.

Definition script (r : Random) : option Namespace :=
  loop [1; 3; 5; 7; 10] (at_import r).

(** ** Concrete streams used in examples *)

(** Draws from a list; past its end every draw is a long exponential. *)
Definition draws (l : list Draw) : Random :=
  mkRandom (fun n => nth n l (mkDraw 0 (1000 # 1))) 0.

(** With [u01 = 1/2] the jitter factor is 1. *)
Definition exp_draw (x : Q) : Draw := mkDraw (1 # 2) x.

(** Three arrivals at times 1, 2 and 3, the next one far beyond the
    horizon; service times 10, 10 and (from the default draw) 9600. *)
Definition three_arrivals : Random :=
  draws (map exp_draw
             [1 # 20; 1 # 20; 10 # 12; 0; 1 # 20; 200 # 1; 10 # 12; 0]%Q).

(** A single arrival at time 1, served in 10 seconds. *)
Definition one_arrival : Random :=
  draws (map exp_draw [1 # 20; 200 # 1; 10 # 12; 0]%Q).

Definition state_after (n c : nat) (r : Random) : Sim :=
  match after n (initial c r) with
  | Some (_, s) => s
  | None => initial c r
  end.

Definition final_state (num_machines : nat) (r : Random) : Sim :=
  match simulate num_machines r with
  | Some s => s
  | None => initial num_machines r
  end.

(** * Part II: the vocabulary of the properties *)

(** ** Relational reading of one dispatch *)

Definition popped (e : Entry) (rest : list Entry) (s : Sim) : Sim :=
  set_env (mkEnv (at_time e) (next_eid (env s)) rest) s.

Inductive loops (c : nat) (s : Sim) : Sim -> Prop :=
| loops_again :
    c < EXPECTED_EMPLOYEES ->
    (0 <= fst (expovariate (arrival_rate_at (now (env s))) (rnd s)))%Q ->
    loops c s
      (sched (SetupResume c) NORMAL
             (fst (expovariate (arrival_rate_at (now (env s))) (rnd s)))
             (set_rnd (advance (rnd s)) s))
| loops_done :
    EXPECTED_EMPLOYEES <= c ->
    loops c s (sched ProcessDone NORMAL 0 s).

Definition spawn (c : nat) (s : Sim) : Sim :=
  sched (EmployeeStart c) URGENT 0 (observe (Spawned c (now (env s))) s).

Definition sample (name : nat) (arrival_time : Q) (s : Sim) : Sim :=
  observe (Sampled name (now (env s) - arrival_time)%Q
                   (length (put_queue (machine s))))
          (record_sample (now (env s) - arrival_time)%Q
                         (length (put_queue (machine s))) s).

Definition service_time (r : Random) : Q :=
  (fst (expovariate SERVICE_RATE r)
   * fst (uniform (4 # 5) (6 # 5) (advance r)))%Q.

Inductive fires : Callback -> Sim -> Sim -> Prop :=
| fires_setup_start s s' :
    0 < capacity (machine s) -> loops 0 s s' -> fires SetupStart s s'
| fires_setup_resume c s s' :
    loops (S c) (spawn (S c) s) s' -> fires (SetupResume c) s s'
| fires_employee_start n s :
    fires (EmployeeStart n) s (employee_start n s)
| fires_employee_granted n a s :
    (0 <= service_time (rnd s))%Q ->
    fires (EmployeeGranted n a) s
      (sched (EmployeeServed n) NORMAL (service_time (rnd s))
             (set_rnd (advance (advance (rnd s))) (sample n a s)))
| fires_employee_served n s :
    fires (EmployeeServed n) s (employee_served n s)
| fires_trigger_put s :
    fires TriggerPut s (trigger_put s)
| fires_process_done s :
    fires ProcessDone s s
| fires_stop s :
    fires StopSimulation s s.

(** ** The event heap *)

Definition pending (f : Callback -> bool) (h : list Entry) : nat :=
  length (filter (fun e => f (callback e)) h).

(** ** Capacity bound *)

Definition within_capacity (s : Sim) : Prop :=
  length (users (machine s)) <= capacity (machine s).

(** ** Samples and completions *)

Definition is_served (cb : Callback) : bool :=
  match cb with EmployeeServed _ => true | _ => false end.

Definition samples_consistent (s : Sim) : Prop :=
  length (wait_times s) = length (queue_lengths s) /\
  served_count s + pending is_served (env_queue (env s))
  = length (wait_times s).

(** ** Clock and heap order *)

Definition no_later (a b : Entry) : Prop := (at_time a <= at_time b)%Q.

Definition env_ok (e : Environment) : Prop :=
  StronglySorted no_later (env_queue e) /\
  Forall (fun x => (now e <= at_time x)%Q) (env_queue e).

(** ** Reading the log *)

Definition requested (tr : list Obs) : list nat :=
  flat_map (fun o => match o with Requested n _ _ => [n] | _ => [] end) tr.

Definition granted (tr : list Obs) : list nat :=
  flat_map (fun o => match o with Granted n _ => [n] | _ => [] end) tr.

Definition spawned (tr : list Obs) : list nat :=
  flat_map (fun o => match o with Spawned n _ => [n] | _ => [] end) tr.

(** ** Queue discipline: grants follow the order of the requests *)

Definition queue_discipline (s : Sim) : Prop :=
  requested (trace s)
  = granted (trace s) ++ map req_name (put_queue (machine s)).

(** ** A freed slot is always followed by a look at the queue *)

Definition is_trigger (cb : Callback) : bool :=
  match cb with TriggerPut => true | _ => false end.

Definition slot_accounted (s : Sim) : Prop :=
  put_queue (machine s) <> [] ->
  capacity (machine s)
  <= length (users (machine s)) + pending is_trigger (env_queue (env s)).

Definition triggers_now (e : Environment) : Prop :=
  Forall (fun x => callback x = TriggerPut -> (at_time x == now e)%Q)
         (env_queue e).

(** ** Every spawned process starts exactly once *)

Definition start_of (e : Entry) : list nat :=
  match callback e with EmployeeStart n => [n] | _ => [] end.

Definition pending_starts (h : list Entry) : list nat := flat_map start_of h.

Definition starts_accounted (s : Sim) : Prop :=
  Permutation (requested (trace s) ++ pending_starts (env_queue (env s)))
              (spawned (trace s)).

(** ** The generator: one loop, counting up to the target *)

Definition is_setup (cb : Callback) : bool :=
  match cb with SetupStart | SetupResume _ => true | _ => false end.

(** What a pending generator callback knows of the count [c] of processes
    spawned so far. *)
Definition knows (c : nat) (cb : Callback) : Prop :=
  match cb with
  | SetupStart => c = 0
  | SetupResume c' => c' = c /\ c < EXPECTED_EMPLOYEES
  | _ => True
  end.

Definition generator_ok (c : nat) (s : Sim) : Prop :=
  spawned (trace s) = seq 1 c /\
  c <= EXPECTED_EMPLOYEES /\
  pending is_setup (env_queue (env s)) <= 1 /\
  Forall (fun e => knows c (callback e)) (env_queue (env s)).

(** ** Every run ends

    Each callback is given the number of dispatches it can still cause;
    a waiting request counts for the dispatches that follow its grant. *)

Definition weight (cb : Callback) : nat :=
  match cb with
  | SetupStart => 6 * EXPECTED_EMPLOYEES + 8
  | SetupResume c => 6 * (EXPECTED_EMPLOYEES - c) + 7
  | EmployeeStart _ => 5
  | EmployeeGranted _ _ => 4
  | EmployeeServed _ => 3
  | TriggerPut => 1
  | ProcessDone => 1
  | StopSimulation => 1
  end.

Definition total (h : list Entry) : nat :=
  list_sum (map (fun e => weight (callback e)) h).

Definition potential (s : Sim) : nat :=
  total (env_queue (env s)) + 4 * length (put_queue (machine s)).

(** ** A run with a well-formed random stream reaches the horizon *)

Definition is_stop (cb : Callback) : bool :=
  match cb with StopSimulation => true | _ => false end.

Definition has_stop (s : Sim) : Prop :=
  1 <= pending is_stop (env_queue (env s)).

(** ** Nothing is dispatched at or after the horizon

    While the run goes on, the [until] event is in the heap and whatever
    precedes it is due strictly before the horizon. *)

Definition before_horizon (e : Entry) : Prop :=
  (at_time e < SIMULATION_DURATION)%Q.

Definition is_until (e : Entry) : Prop :=
  (at_time e == SIMULATION_DURATION)%Q /\ priority e = URGENT /\
  entry_id e = 1 /\ callback e = StopSimulation.

(** Due before the horizon, and not the [until] event itself. *)
Definition early (e : Entry) : Prop :=
  before_horizon e /\ callback e <> StopSimulation.

Definition horizon_ahead (e : Environment) : Prop :=
  2 <= next_eid e /\ (now e < SIMULATION_DURATION)%Q /\
  exists pre stop post,
    env_queue e = pre ++ stop :: post /\
    Forall early pre /\ is_until stop.

(** ** What holds at every point of a run *)

Record sound (c : nat) (s : Sim) : Prop := mkSound
  { sound_capacity : capacity (machine s) = c;
    sound_within : within_capacity s;
    sound_samples : samples_consistent s;
    sound_env : env_ok (env s);
    sound_discipline : queue_discipline s;
    sound_slots : slot_accounted s;
    sound_triggers : triggers_now (env s);
    sound_starts : starts_accounted s;
    sound_generator : exists k, generator_ok k s }.

(** ** Utilization *)

(** The formula as the specification words it: completed entities times
    the mean service time (the mean of [expovariate(SERVICE_RATE)]), over
    horizon times capacity. *)
Definition mean_service_time : Q := 1 / SERVICE_RATE.

Definition spec_utilization (served num_machines : nat) : Q :=
  Q_of_nat served * mean_service_time
  / (SIMULATION_DURATION * Q_of_nat num_machines).

Definition utilization_as_specified (c : nat) (r : Random) : Prop :=
  forall s, simulate c r = Some s ->
            (rep_utilization (report c s)
             == spec_utilization (served_count s) c)%Q.

(** ** Averages *)

(** The arithmetic mean, as the specification words it. *)
Definition arithmetic_mean (l : list Q) : Q :=
  fold_right Qplus 0%Q l / Q_of_nat (length l).

(** ** The parameter sweep *)

Definition reported_by (c : nat) (p : Report) : Prop :=
  exists r s, stream_ok r /\ simulate c r = Some s /\ p = report c s.

(** ** Scenario isolation *)

(** The entry a scenario has just appended to the five lists. *)
Definition latest (g : Globals) : Report :=
  mkReport (last (res_num_machines (results g)) 0)
           (last (res_wait_times (results g)) 0%Q)
           (last (res_queue_lengths (results g)) 0%Q)
           (last (res_utilization (results g)) 0%Q)
           (last (res_throughput (results g)) 0%Q).

Definition after_five : Globals :=
  match scenario 5 (mkGlobals one_arrival no_results) with
  | Some g => g
  | None => mkGlobals one_arrival no_results
  end.

(** The module's names, seen as the state [scenario] works on. *)
Definition globals_of (ns : Namespace) : Globals :=
  mkGlobals (ns_random ns) (ns_results ns).

(** The generator of the random module set to a given stream. *)
Definition reseed (r : Random) (ns : Namespace) : Namespace :=
  mkNamespace r (ns_results ns) (ns_num_machines ns) (ns_env ns)
              (ns_wait_times ns) (ns_queue_lengths ns) (ns_served_count ns).

(** What the five names are bound to. *)
Definition bindings (ns : Namespace)
  : option nat * option Environment * option (list Q)
    * option (list nat) * option nat :=
  (ns_num_machines ns, ns_env ns, ns_wait_times ns, ns_queue_lengths ns,
   ns_served_count ns).

(** The entry an iteration has just appended to the five lists. *)
Definition appended (ns : Namespace) : Report := latest (globals_of ns).

(** The module as the capacity-5 scenario leaves it. *)
Definition left_by_five : Namespace :=
  match loop_body 5 (at_import one_arrival) with
  | Some ns => ns
  | None => at_import one_arrival
  end.

(** ** The arrival generator *)

Definition spawn_times_ok (s : Sim) : Prop :=
  Forall (fun o => match o with
                   | Spawned _ t => (t < SIMULATION_DURATION)%Q
                   | _ => True
                   end) (trace s).

(** C3 as stated: a completed run has spawned the target count. *)
Definition spawns_to_target (c : nat) (r : Random) : Prop :=
  forall s, simulate c r = Some s ->
            length (spawned (trace s)) = EXPECTED_EMPLOYEES.

(** ** Capacity and prompt grants *)



(** ** First come, first served *)

Definition grant_log (tr : list Obs) : list (nat * Q) :=
  flat_map (fun o => match o with Granted n t => [(n, t)] | _ => [] end) tr.

Definition precedes {A : Type} (l : list A) (a b : A) : Prop :=
  exists l1 l2 l3, l = l1 ++ a :: l2 ++ b :: l3.

Definition earlier (x y : nat * Q) : Prop := (snd x <= snd y)%Q.

Definition grants_timed (s : Sim) : Prop :=
  StronglySorted earlier (grant_log (trace s)) /\
  Forall (fun x => (snd x <= now (env s))%Q) (grant_log (trace s)).

(** ** Grants, samples and the horizon *)

Definition is_granted (cb : Callback) : bool :=
  match cb with EmployeeGranted _ _ => true | _ => false end.

(** Every grant is either sampled or still to be dispatched, and a held
    slot was granted. *)
Definition grants_accounted (s : Sim) : Prop :=
  length (wait_times s) + pending is_granted (env_queue (env s))
  = length (granted (trace s)) /\
  length (users (machine s)) <= length (granted (trace s)).

(** A grant is due at the clock value at which it was given, which is
    before the horizon. *)
Definition grants_due (e : Environment) : Prop :=
  Forall (fun x => is_granted (callback x) = true -> before_horizon x)
         (env_queue e).

(** ** A single entity *)

Definition due_at_arrival (e : Entry) : Prop :=
  match callback e with
  | EmployeeGranted _ a => (at_time e == a)%Q
  | _ => True
  end.

(** What holds as long as at most one entity has arrived. *)
Definition alone (s : Sim) : Prop :=
  length (requested (trace s)) <= 1 ->
  put_queue (machine s) = [] /\
  Forall due_at_arrival (env_queue (env s)) /\
  Forall (fun w => (w == 0)%Q) (wait_times s) /\
  Forall (fun q => q = 0) (queue_lengths s).

(** ** What the samples measure *)

Definition known (tr : list Obs) (name : nat) (arrival : Q) : Prop :=
  exists ahead, In (Requested name arrival ahead) tr.

Definition grant_known (tr : list Obs) (e : Entry) : Prop :=
  match callback e with
  | EmployeeGranted n a => known tr n a /\ In n (granted tr)
  | _ => True
  end.

Definition requests_known (s : Sim) : Prop :=
  Forall (fun q => known (trace s) (req_name q) (req_arrival q))
         (put_queue (machine s)) /\
  Forall (grant_known (trace s)) (env_queue (env s)).

(** C2 as stated, under either way of counting (with or without the
    arriving entity itself): the recorded queue length is the one seen on
    arrival. *)
Definition samples_at_arrival (c : nat) (r : Random) : Prop :=
  forall n st s name w q,
    after n (initial c r) = Some (st, s) ->
    In (Sampled name w q) (trace s) ->
    exists t ahead,
      In (Requested name t ahead) (trace s) /\ (q = ahead \/ q = S ahead).

(** ** The life of an entity *)

Definition sampled (tr : list Obs) : list nat :=
  flat_map (fun o => match o with Sampled n _ _ => [n] | _ => [] end) tr.

Definition departed (tr : list Obs) : list nat :=
  flat_map (fun o => match o with Departed n _ => [n] | _ => [] end) tr.

(** Entities whose grant awaits its dispatch, and entities in service. *)
Definition grant_of (e : Entry) : list nat :=
  match callback e with EmployeeGranted n _ => [n] | _ => [] end.

Definition service_of (e : Entry) : list nat :=
  match callback e with EmployeeServed n => [n] | _ => [] end.

Definition being_granted (h : list Entry) : list nat := flat_map grant_of h.

Definition in_service (h : list Entry) : list nat := flat_map service_of h.

Definition lifecycle (s : Sim) : Prop :=
  served_count s = length (departed (trace s)) /\
  Permutation (granted (trace s))
              (sampled (trace s) ++ being_granted (env_queue (env s))) /\
  Permutation (sampled (trace s))
              (departed (trace s) ++ in_service (env_queue (env s))) /\
  Permutation (map req_name (users (machine s)))
              (being_granted (env_queue (env s))
               ++ in_service (env_queue (env s))).

(** ** What a wait time is *)

Definition sample_waits (tr : list Obs) : list Q :=
  flat_map (fun o => match o with Sampled _ w _ => [w] | _ => [] end) tr.

Definition sample_queues (tr : list Obs) : list nat :=
  flat_map (fun o => match o with Sampled _ _ q => [q] | _ => [] end) tr.

(** [w] is the time from the request of [n] to its grant. *)
Definition waited (tr : list Obs) (n : nat) (w : Q) : Prop :=
  exists a ahead t,
    In (Requested n a ahead) tr /\ In (Granted n t) tr /\
    (a <= t)%Q /\ (w == t - a)%Q.

Definition request_logged (tr : list Obs) (clock : Q) (q : Request) : Prop :=
  (exists ahead, In (Requested (req_name q) (req_arrival q) ahead) tr) /\
  (req_arrival q <= clock)%Q.

Definition grant_logged (tr : list Obs) (e : Entry) : Prop :=
  match callback e with
  | EmployeeGranted n a =>
      exists ahead t,
        In (Requested n a ahead) tr /\ In (Granted n t) tr /\
        (a <= t)%Q /\ (at_time e == t)%Q
  | _ => True
  end.

Definition sample_logged (tr : list Obs) (o : Obs) : Prop :=
  match o with
  | Sampled n w _ => waited tr n w
  | _ => True
  end.

Definition waits_explained (s : Sim) : Prop :=
  wait_times s = sample_waits (trace s) /\
  queue_lengths s = sample_queues (trace s) /\
  Forall (request_logged (trace s) (now (env s))) (put_queue (machine s)) /\
  Forall (grant_logged (trace s)) (env_queue (env s)) /\
  Forall (sample_logged (trace s)) (trace s).

(** ** Use of the random stream *)

Definition is_resume (cb : Callback) : bool :=
  match cb with SetupResume _ => true | _ => false end.

(** Draws taken since the run started from [r]: one for every gap the
    generator sampled, two for every service time. *)
Definition draws_accounted (r : Random) (s : Sim) : Prop :=
  stream (rnd s) = stream r /\
  pos (rnd s)
  = pos r + length (spawned (trace s))
    + pending is_resume (env_queue (env s))
    + 2 * length (wait_times s).

(** ** The results across a sweep *)


(** * Part III: proofs *)

(** ** Relational reading of one dispatch *)

Lemma setup_loop_loops c s s' : setup_loop c s = Some s' -> loops c s s'.
Proof.
  unfold setup_loop, timeout.
  destruct (c <? EXPECTED_EMPLOYEES) eqn:Hc.
  - apply Nat.ltb_lt in Hc. cbn [expovariate].
    destruct (Qle_bool 0 _) eqn:Hd; [|discriminate].
    intros H; injection H as <-. apply Qle_bool_iff in Hd.
    now apply loops_again.
  - apply Nat.ltb_ge in Hc. intros H; injection H as <-.
    now apply loops_done.
Qed.

Lemma dispatch_fires cb s s' :
  dispatch cb s = Next s' \/ dispatch cb s = Stop s' -> fires cb s s'.
Proof.
  destruct cb; cbn [dispatch of_option].
  - unfold setup_start. destruct (0 <? capacity (machine s)) eqn:Hc.
    + destruct (setup_loop 0 s) eqn:Hl; intros [H|H]; try discriminate.
      injection H as <-. apply Nat.ltb_lt in Hc.
      constructor; [assumption | now apply setup_loop_loops].
    + intros [H|H]; discriminate.
  - unfold setup_resume.
    destruct (setup_loop _ _) eqn:Hl; intros [H|H]; try discriminate.
    injection H as <-. constructor. now apply setup_loop_loops.
  - intros [H|H]; try discriminate. injection H as <-. constructor.
  - unfold employee_granted, timeout. cbn [expovariate uniform].
    destruct (Qle_bool 0 _) eqn:Hd; intros [H|H]; try discriminate.
    injection H as <-. apply Qle_bool_iff in Hd.
    now apply fires_employee_granted.
  - intros [H|H]; try discriminate. injection H as <-. constructor.
  - intros [H|H]; try discriminate. injection H as <-. constructor.
  - intros [H|H]; try discriminate. injection H as <-. constructor.
  - intros [H|H]; try discriminate. injection H as <-. constructor.
Qed.

Lemma step_fires s s' :
  step s = Next s' \/ step s = Stop s' ->
  exists e rest,
    env_queue (env s) = e :: rest /\ fires (callback e) (popped e rest s) s'.
Proof.
  unfold step. destruct (env_queue (env s)) as [|e rest].
  - intros [H|H]; discriminate.
  - intros H. exists e, rest. split; [reflexivity|].
    now apply dispatch_fires.
Qed.

(** Induction over the points of a run. *)
Lemma after_invariant (P : Sim -> Prop) s0 :
  P s0 ->
  (forall s s', P s -> step s = Next s' \/ step s = Stop s' -> P s') ->
  forall n st s, after n s0 = Some (st, s) -> P s.
Proof.
  intros H0 Hstep. induction n as [|n IH]; cbn [after]; intros st s H.
  - now injection H as _ <-.
  - destruct (after n s0) as [[[|] s1]|] eqn:Hn; try discriminate.
    cbn [advance_run] in H. specialize (IH _ _ eq_refl).
    destruct (step s1) eqn:Hs; try discriminate; injection H as _ <-;
      eapply Hstep; eauto.
Qed.

(** ** The event heap *)

Lemma heappush_perm e h : Permutation (heappush e h) (e :: h).
Proof.
  induction h as [|x h IH]; cbn [heappush].
  - reflexivity.
  - destruct (entry_lt e x).
    + reflexivity.
    + rewrite IH. apply perm_swap.
Qed.

Lemma pending_cons f e h :
  pending f (e :: h) = (if f (callback e) then 1 else 0) + pending f h.
Proof. unfold pending. cbn [filter]. now destruct (f (callback e)). Qed.

Lemma pending_heappush f e h :
  pending f (heappush e h) = (if f (callback e) then 1 else 0) + pending f h.
Proof.
  induction h as [|x h IH]; cbn [heappush].
  - apply pending_cons.
  - destruct (entry_lt e x).
    + apply pending_cons.
    + rewrite (pending_cons f x), IH, (pending_cons f x). lia.
Qed.

Lemma Forall_heappush (P : Entry -> Prop) e h :
  P e -> Forall P h -> Forall P (heappush e h).
Proof.
  intros He Hh. eapply Permutation_Forall.
  - symmetry. apply heappush_perm.
  - now constructor.
Qed.

Lemma In_heappush x e h : In x (heappush e h) <-> x = e \/ In x h.
Proof.
  split; intros H.
  - apply (Permutation_in _ (heappush_perm e h)) in H.
    destruct H as [H|H]; [left; now symmetry | now right].
  - apply (Permutation_in _ (Permutation_sym (heappush_perm e h))).
    destruct H as [H|H]; [left; now symmetry | now right].
Qed.

(** ** Tactics for the case analysis of one dispatch *)

Ltac fire H :=
  inversion H; subst; clear H;
  repeat match goal with
         | L : loops _ _ _ |- _ => inversion L; subst; clear L
         end.

Ltac open_resource :=
  unfold employee_start, employee_served, release, request, trigger_put;
  cbn [machine put_queue users capacity set_machine observe incr_served
       sched set_env env popped];
  repeat match goal with
         | |- context [match ?l with [] => _ | _ :: _ => _ end] =>
             destruct l eqn:?
         | |- context [if ?b then _ else _] => destruct b eqn:?
         end;
  repeat match goal with
         | H : (_ <? _) = true |- _ => apply Nat.ltb_lt in H
         | H : (_ <? _) = false |- _ => apply Nat.ltb_ge in H
         end.

Lemma remove_user_length name l : length (remove_user name l) <= length l.
Proof.
  induction l as [|r l IH]; cbn [remove_user length]; [lia|].
  destruct (req_name r =? name); cbn [length]; lia.
Qed.

(** ** Capacity bound *)

Lemma within_capacity_fires cb e rest s s' :
  within_capacity s -> fires cb (popped e rest s) s' -> within_capacity s'.
Proof.
  unfold within_capacity. intros Hs Hf. fire Hf; try exact Hs.
  - open_resource; cbn; try exact Hs.
    rewrite length_app. cbn. lia.
  - open_resource; cbn. etransitivity; [apply remove_user_length | exact Hs].
  - open_resource; cbn; try exact Hs.
    rewrite length_app. cbn. lia.
Qed.

Lemma within_capacity_step s s' :
  within_capacity s -> step s = Next s' \/ step s = Stop s' ->
  within_capacity s'.
Proof.
  intros Hs H. destruct (step_fires _ _ H) as (e & rest & _ & Hf).
  eapply within_capacity_fires; eauto.
Qed.

Lemma capacity_fires cb s s' :
  fires cb s s' -> capacity (machine s') = capacity (machine s).
Proof.
  intros Hf. fire Hf; try reflexivity; open_resource; reflexivity.
Qed.

Lemma capacity_step s s' :
  step s = Next s' \/ step s = Stop s' ->
  capacity (machine s') = capacity (machine s).
Proof.
  intros H. destruct (step_fires _ _ H) as (e & rest & _ & Hf).
  now rewrite (capacity_fires _ _ _ Hf).
Qed.

(** ** Samples and completions *)

Arguments pending : simpl never.

Ltac heap_count :=
  cbn; rewrite ?pending_heappush, ?pending_cons in *; cbn in *;
  rewrite ?length_app in *; cbn in *.

Lemma samples_consistent_step s s' :
  samples_consistent s -> step s = Next s' \/ step s = Stop s' ->
  samples_consistent s'.
Proof.
  unfold samples_consistent. intros [Hl Hc] H.
  destruct (step_fires _ _ H) as (e & rest & Hq & Hf).
  rewrite Hq in Hc. destruct e as [t p i cb]. cbn [callback] in Hf.
  fire Hf; try (open_resource); heap_count; lia.
Qed.

(** ** Clock and heap order *)

Lemma entry_lt_true a b : entry_lt a b = true -> no_later a b.
Proof.
  unfold entry_lt, no_later.
  destruct (Qcompare_spec (at_time a) (at_time b)) as [E|L|G].
  - intros _. rewrite E. apply Qle_refl.
  - intros _. now apply Qlt_le_weak.
  - discriminate.
Qed.

Lemma entry_lt_false a b : entry_lt a b = false -> no_later b a.
Proof.
  unfold entry_lt, no_later.
  destruct (Qcompare_spec (at_time a) (at_time b)) as [E|L|G].
  - intros _. rewrite E. apply Qle_refl.
  - discriminate.
  - intros _. now apply Qlt_le_weak.
Qed.

Lemma heappush_sorted e h :
  StronglySorted no_later h -> StronglySorted no_later (heappush e h).
Proof.
  induction 1 as [|x h Hs IH Hx]; cbn [heappush].
  - repeat constructor.
  - destruct (entry_lt e x) eqn:Hlt.
    + constructor; [now constructor|].
      apply entry_lt_true in Hlt. constructor; [exact Hlt|].
      eapply Forall_impl; [|exact Hx].
      unfold no_later in *. intros y Hy. eapply Qle_trans; eauto.
    + constructor; [exact IH|].
      apply Forall_heappush; [now apply entry_lt_false | exact Hx].
Qed.

Lemma env_ok_schedule cb p d e :
  (0 <= d)%Q -> env_ok e -> env_ok (schedule cb p d e).
Proof.
  intros Hd [Hs Hn]. split; cbn [schedule env_queue now].
  - now apply heappush_sorted.
  - apply Forall_heappush; [|exact Hn].
    cbn [at_time]. rewrite <- (Qplus_0_r (now e)) at 1.
    apply Qplus_le_compat; [apply Qle_refl | exact Hd].
Qed.

Lemma env_ok_pop e rest n i :
  env_ok (mkEnv n i (e :: rest)) -> env_ok (mkEnv (at_time e) i rest).
Proof.
  intros [Hs _]. cbn [env_queue now] in *.
  inversion Hs; subst. split; assumption.
Qed.

Lemma env_trigger_put s :
  env (trigger_put s) = env s \/
  exists n a, env (trigger_put s)
              = schedule (EmployeeGranted n a) NORMAL 0 (env s).
Proof.
  unfold trigger_put. destruct (put_queue (machine s)) as [|r q]; [now left|].
  destruct (_ <? _); [right | now left].
  now exists (req_name r), (req_arrival r).
Qed.

Lemma env_ok_trigger_put s : env_ok (env s) -> env_ok (env (trigger_put s)).
Proof.
  intros H. destruct (env_trigger_put s) as [E|(n & a & E)]; rewrite E.
  - exact H.
  - apply env_ok_schedule; [discriminate | exact H].
Qed.

Lemma env_ok_fires cb s s' :
  env_ok (env s) -> fires cb s s' -> env_ok (env s').
Proof.
  intros Hs Hf. fire Hf; try exact Hs.
  - now apply env_ok_schedule.
  - apply env_ok_schedule; [discriminate | exact Hs].
  - apply env_ok_schedule; [assumption|].
    apply env_ok_schedule; [discriminate | exact Hs].
  - apply env_ok_schedule; [discriminate|].
    apply env_ok_schedule; [discriminate | exact Hs].
  - unfold employee_start, request. apply env_ok_trigger_put. exact Hs.
  - now apply env_ok_schedule.
  - unfold employee_served, release.
    apply env_ok_schedule; [discriminate|].
    apply env_ok_schedule; [discriminate | exact Hs].
  - now apply env_ok_trigger_put.
Qed.

Lemma env_ok_step s s' :
  env_ok (env s) -> step s = Next s' \/ step s = Stop s' -> env_ok (env s').
Proof.
  intros Hs H. destruct (step_fires _ _ H) as (e & rest & Hq & Hf).
  apply env_ok_fires with (cb := callback e) (s := popped e rest s);
    [|exact Hf].
  cbn [popped set_env env]. apply env_ok_pop with (n := now (env s)).
  rewrite <- Hq. now destruct (env s).
Qed.

Lemma now_trigger_put s : now (env (trigger_put s)) = now (env s).
Proof.
  destruct (env_trigger_put s) as [E|(k & a & E)]; rewrite E; reflexivity.
Qed.



(** ** Reading the log *)

Arguments requested : simpl never.
Arguments granted : simpl never.
Arguments spawned : simpl never.

Lemma requested_snoc tr o :
  requested (tr ++ [o])
  = requested tr ++ match o with Requested n _ _ => [n] | _ => [] end.
Proof. unfold requested. rewrite flat_map_app. cbn. now rewrite app_nil_r. Qed.

Lemma granted_snoc tr o :
  granted (tr ++ [o])
  = granted tr ++ match o with Granted n _ => [n] | _ => [] end.
Proof. unfold granted. rewrite flat_map_app. cbn. now rewrite app_nil_r. Qed.

Lemma spawned_snoc tr o :
  spawned (tr ++ [o])
  = spawned tr ++ match o with Spawned n _ => [n] | _ => [] end.
Proof. unfold spawned. rewrite flat_map_app. cbn. now rewrite app_nil_r. Qed.

Ltac read_log :=
  cbn; rewrite ?requested_snoc, ?granted_snoc, ?spawned_snoc; cbn;
  rewrite ?app_nil_r.

(** ** Queue discipline: grants follow the order of the requests *)

Lemma queue_discipline_trigger_put s :
  queue_discipline s -> queue_discipline (trigger_put s).
Proof.
  unfold queue_discipline, trigger_put. intros H.
  destruct (put_queue (machine s)) as [|r q] eqn:Hq; [now rewrite Hq|].
  destruct (_ <? _); [|now rewrite Hq].
  read_log. rewrite H. cbn. now rewrite <- app_assoc.
Qed.

Lemma queue_discipline_fires cb e rest s s' :
  queue_discipline s -> fires cb (popped e rest s) s' -> queue_discipline s'.
Proof.
  intros Hs Hf. fire Hf; try exact Hs; unfold queue_discipline in *.
  - read_log. exact Hs.
  - read_log. exact Hs.
  - unfold employee_start, request. apply queue_discipline_trigger_put.
    unfold queue_discipline. read_log.
    rewrite Hs, map_app, app_assoc. reflexivity.
  - read_log. exact Hs.
  - read_log. exact Hs.
  - apply queue_discipline_trigger_put. exact Hs.
Qed.

Lemma queue_discipline_step s s' :
  queue_discipline s -> step s = Next s' \/ step s = Stop s' ->
  queue_discipline s'.
Proof.
  intros Hs H. destruct (step_fires _ _ H) as (e & rest & _ & Hf).
  eapply queue_discipline_fires; eauto.
Qed.

(** ** A freed slot is always followed by a look at the queue *)

Lemma remove_user_length_ge name l :
  length l <= S (length (remove_user name l)).
Proof.
  induction l as [|r l IH]; cbn [remove_user length]; [lia|].
  destruct (req_name r =? name); cbn [length]; lia.
Qed.

Lemma slot_accounted_step s s' :
  slot_accounted s -> step s = Next s' \/ step s = Stop s' ->
  slot_accounted s'.
Proof.
  unfold slot_accounted. intros Hs H.
  destruct (step_fires _ _ H) as (e & rest & Hq & Hf).
  rewrite Hq in Hs. destruct e as [t p i cb]. cbn [callback] in Hf.
  fire Hf; try (heap_count; exact Hs).
  - destruct (put_queue (machine s)) as [|r0 q0] eqn:Hp.
    + open_resource; heap_count; try congruence; intros Hl;
        rewrite Hp in Heql; injection Heql as _ <-; first [congruence | lia].
    + assert (Hne : r0 :: q0 <> []) by discriminate. specialize (Hs Hne).
      open_resource; heap_count; intros _; lia.
  - open_resource. heap_count.
    pose proof (remove_user_length_ge n (users (machine s))).
    intros Hne. specialize (Hs Hne). lia.
  - open_resource; heap_count; try congruence; intros _.
    + assert (Hne : r :: l <> []) by discriminate. specialize (Hs Hne). lia.
    + lia.
Qed.

Lemma triggers_now_schedule cb p d e :
  (cb = TriggerPut -> d == 0)%Q ->
  triggers_now e -> triggers_now (schedule cb p d e).
Proof.
  unfold triggers_now. intros Hd He. cbn [schedule env_queue now].
  apply Forall_heappush; [|exact He].
  cbn [callback at_time]. intros E. rewrite (Hd E). apply Qplus_0_r.
Qed.

Lemma triggers_now_pop e rest n i :
  env_ok (mkEnv n i (e :: rest)) ->
  triggers_now (mkEnv n i (e :: rest)) ->
  triggers_now (mkEnv (at_time e) i rest).
Proof.
  unfold triggers_now. intros [Hs Hn] Ht. cbn [env_queue now] in *.
  inversion Hs as [|? ? _ Hle]; subst. inversion Hn as [|? ? Hne _]; subst.
  inversion Ht as [|? ? _ Hr]; subst.
  rewrite Forall_forall in *. intros x Hx E.
  specialize (Hle x Hx). specialize (Hr x Hx E). unfold no_later in Hle.
  apply Qle_antisym; [|exact Hle]. rewrite Hr. exact Hne.
Qed.

Lemma triggers_now_trigger_put s :
  triggers_now (env s) -> triggers_now (env (trigger_put s)).
Proof.
  intros H. destruct (env_trigger_put s) as [E|(n & a & E)]; rewrite E.
  - exact H.
  - apply triggers_now_schedule; [discriminate | exact H].
Qed.

Lemma triggers_now_fires cb s s' :
  triggers_now (env s) -> fires cb s s' -> triggers_now (env s').
Proof.
  intros Hs Hf. fire Hf; try exact Hs;
    repeat (apply triggers_now_schedule;
            [try discriminate; intros _; reflexivity|]);
    try exact Hs.
  - unfold employee_start, request. apply triggers_now_trigger_put. exact Hs.
  - now apply triggers_now_trigger_put.
Qed.

Lemma triggers_now_step s s' :
  env_ok (env s) -> triggers_now (env s) ->
  step s = Next s' \/ step s = Stop s' -> triggers_now (env s').
Proof.
  intros Ho Hs H. destruct (step_fires _ _ H) as (e & rest & Hq & Hf).
  apply triggers_now_fires with (cb := callback e) (s := popped e rest s);
    [|exact Hf].
  cbn [popped set_env env].
  apply triggers_now_pop with (n := now (env s));
    rewrite <- Hq; now destruct (env s).
Qed.

(** ** Every spawned process starts exactly once *)

Arguments pending_starts : simpl never.

Lemma pending_starts_heappush e h :
  Permutation (pending_starts (heappush e h)) (start_of e ++ pending_starts h).
Proof.
  unfold pending_starts. rewrite (heappush_perm e h). reflexivity.
Qed.

Lemma pending_starts_cons e h :
  pending_starts (e :: h) = start_of e ++ pending_starts h.
Proof. reflexivity. Qed.

Lemma trace_trigger_put s :
  trace (trigger_put s) = trace s \/
  exists n t, trace (trigger_put s) = trace s ++ [Granted n t].
Proof.
  unfold trigger_put. destruct (put_queue (machine s)) as [|r q]; [now left|].
  destruct (_ <? _); [right | now left].
  now exists (req_name r), (now (env s)).
Qed.

Lemma requested_trigger_put s :
  requested (trace (trigger_put s)) = requested (trace s).
Proof.
  destruct (trace_trigger_put s) as [E|(n & t & E)]; rewrite E;
    [reflexivity | now read_log].
Qed.

Lemma spawned_trigger_put s :
  spawned (trace (trigger_put s)) = spawned (trace s).
Proof.
  destruct (trace_trigger_put s) as [E|(n & t & E)]; rewrite E;
    [reflexivity | now read_log].
Qed.

Lemma pending_starts_trigger_put s :
  Permutation (pending_starts (env_queue (env (trigger_put s))))
              (pending_starts (env_queue (env s))).
Proof.
  destruct (env_trigger_put s) as [E|(n & a & E)]; rewrite E; [reflexivity|].
  cbn [schedule env_queue]. now rewrite pending_starts_heappush.
Qed.

Lemma starts_accounted_step s s' :
  starts_accounted s -> step s = Next s' \/ step s = Stop s' ->
  starts_accounted s'.
Proof.
  unfold starts_accounted. intros Hs H.
  destruct (step_fires _ _ H) as (e & rest & Hq & Hf).
  clear H. rewrite Hq, pending_starts_cons in Hs. clear Hq.
  destruct e as [t p i cb]. cbn [callback] in Hf. unfold start_of in Hs.
  cbn [callback app] in Hs.
  fire Hf; cbn [app] in Hs; try exact Hs; read_log;
    rewrite ?pending_starts_heappush; unfold start_of; cbn [callback app];
    try exact Hs.
  - rewrite <- Hs, <- app_assoc.
    apply Permutation_app_head, Permutation_cons_append.
  - rewrite <- Hs, <- app_assoc.
    apply Permutation_app_head, Permutation_cons_append.
  - unfold employee_start, request.
    rewrite requested_trigger_put, spawned_trigger_put,
      pending_starts_trigger_put.
    read_log. now rewrite <- app_assoc.
  - rewrite requested_trigger_put, spawned_trigger_put,
      pending_starts_trigger_put. exact Hs.
Qed.

(** ** The generator: one loop, counting up to the target *)

Lemma pending_none f h :
  pending f h = 0 -> Forall (fun e => f (callback e) = false) h.
Proof.
  induction h as [|x h IH]; [constructor|].
  rewrite pending_cons. destruct (f (callback x)) eqn:E; [discriminate|].
  intros H. constructor; [exact E | now apply IH].
Qed.

Lemma knows_not_setup c h :
  pending is_setup h = 0 -> Forall (fun e => knows c (callback e)) h.
Proof.
  intros H0. apply pending_none in H0.
  eapply Forall_impl; [|exact H0].
  intros e. cbn beta. unfold knows. now destruct (callback e).
Qed.

Lemma generator_ok_frame c s s' :
  env s' = env s -> spawned (trace s') = spawned (trace s) ->
  generator_ok c s -> generator_ok c s'.
Proof. unfold generator_ok. now intros -> ->. Qed.

Lemma generator_ok_sched c cb p d s :
  is_setup cb = false ->
  generator_ok c s -> generator_ok c (sched cb p d s).
Proof.
  intros Hcb (Hsp & Hc & Hp & Hk). repeat split; try assumption.
  - cbn. rewrite pending_heappush. cbn [callback]. now rewrite Hcb.
  - cbn. apply Forall_heappush; [|exact Hk].
    cbn [callback]. now destruct cb.
Qed.

Lemma generator_ok_trigger_put c s :
  generator_ok c s -> generator_ok c (trigger_put s).
Proof.
  intros (Hsp & Hc & Hp & Hk). unfold generator_ok.
  rewrite spawned_trigger_put.
  destruct (env_trigger_put s) as [E|(n & a & E)]; rewrite E.
  - now repeat split.
  - cbn [schedule env_queue]. rewrite pending_heappush. cbn [callback is_setup].
    repeat split; try assumption.
    apply Forall_heappush; [exact I | exact Hk].
Qed.

Lemma generator_ok_loops c s s' :
  spawned (trace s) = seq 1 c -> c <= EXPECTED_EMPLOYEES ->
  pending is_setup (env_queue (env s)) = 0 ->
  loops c s s' -> generator_ok c s'.
Proof.
  intros Hsp Hc H0 Hl.
  assert (Hk : Forall (fun e => knows c (callback e)) (env_queue (env s))).
  { now apply knows_not_setup. }
  inversion Hl; subst; clear Hl.
  - repeat split; try assumption.
    + cbn. rewrite pending_heappush, H0. cbn. lia.
    + cbn. apply Forall_heappush; [|exact Hk]. cbn. now split.
  - apply generator_ok_sched; [reflexivity|].
    repeat split; try assumption. rewrite H0. lia.
Qed.

Lemma generator_ok_step c s s' :
  generator_ok c s -> step s = Next s' \/ step s = Stop s' ->
  exists c', generator_ok c' s'.
Proof.
  intros (Hsp & Hc & Hp & Hk) H.
  destruct (step_fires _ _ H) as (e & rest & Hq & Hf). clear H.
  rewrite Hq in Hp, Hk. clear Hq. rewrite pending_cons in Hp.
  inversion Hk as [|? ? Hke Hkr]; subst. clear Hk.
  destruct e as [t p i cb]. cbn [callback] in *.
  assert (Hrest : generator_ok c (popped (mkEntry t p i cb) rest s)).
  { repeat split; try assumption. cbn. lia. }
  inversion Hf; subst; clear Hf; cbn [knows is_setup] in *.
  - subst c. exists 0.
    apply generator_ok_loops
      with (s := popped (mkEntry t p i SetupStart) rest s);
      [exact Hsp | lia | cbn; lia | assumption].
  - destruct Hke as [-> Hlt]. exists (S c).
    eapply generator_ok_loops; [| lia | | eassumption].
    + unfold spawn. cbn [trace sched set_env observe popped].
      rewrite spawned_snoc, Hsp. symmetry. apply (seq_S c 1).
    + cbn. rewrite pending_heappush. cbn. lia.
  - exists c. unfold employee_start, request.
    apply generator_ok_trigger_put.
    eapply generator_ok_frame; [| |exact Hrest]; [reflexivity | now read_log].
  - exists c. apply generator_ok_sched; [reflexivity|].
    eapply generator_ok_frame; [| |exact Hrest];
      [reflexivity | unfold sample; now read_log].
  - exists c. unfold employee_served, release.
    apply generator_ok_sched; [reflexivity|].
    apply generator_ok_sched; [reflexivity|].
    eapply generator_ok_frame; [| |exact Hrest]; [reflexivity | now read_log].
  - exists c. now apply generator_ok_trigger_put.
  - now exists c.
  - now exists c.
Qed.

(** ** Every run ends *)

Arguments EXPECTED_EMPLOYEES : simpl never.

Arguments total : simpl never.

Lemma total_cons e h : total (e :: h) = weight (callback e) + total h.
Proof. reflexivity. Qed.

Lemma total_heappush e h :
  total (heappush e h) = weight (callback e) + total h.
Proof.
  induction h as [|x h IH]; cbn [heappush].
  - reflexivity.
  - destruct (entry_lt e x).
    + reflexivity.
    + rewrite (total_cons x), IH, (total_cons x). lia.
Qed.

Lemma potential_trigger_put s : potential (trigger_put s) <= potential s.
Proof.
  unfold potential, trigger_put.
  destruct (put_queue (machine s)) as [|r q] eqn:Hq; [now rewrite Hq|].
  destruct (_ <? _); [|now rewrite Hq].
  cbn [sched set_env env schedule env_queue machine put_queue observe
       set_machine length].
  rewrite total_heappush. cbn [callback weight]. lia.
Qed.

Lemma potential_fires cb s s' :
  fires cb s s' -> S (potential s') <= potential s + weight cb.
Proof.
  intros Hf.
  destruct Hf as [s s' Hc Hl | c s s' Hl | n s | n a s Hd | n s | s | s | s];
    try destruct Hl as [Hlt Hd | Hge];
    unfold potential;
    cbn [sched set_env env schedule env_queue machine put_queue observe
         set_machine set_rnd spawn sample record_sample incr_served];
    rewrite ?total_heappush; cbn [callback weight]; try lia.
  - pose proof (potential_trigger_put
                  (set_machine
                     (mkResource (capacity (machine s)) (users (machine s))
                                 (put_queue (machine s)
                                  ++ [mkRequest n (now (env s))]))
                     (observe (Requested n (now (env s))
                                 (length (put_queue (machine s)))) s)))
      as Hp.
    unfold potential in Hp.
    cbn [env machine put_queue set_machine observe] in Hp.
    rewrite length_app in Hp. cbn [length] in Hp.
    unfold employee_start, request.
    cbn [env machine put_queue set_machine observe capacity users]. lia.
  - unfold employee_served, release.
    cbn [sched set_env env schedule env_queue machine put_queue observe
         set_machine incr_served].
    rewrite !total_heappush. cbn [callback weight]. lia.
  - pose proof (potential_trigger_put s) as Hp. unfold potential in Hp. lia.
Qed.

Lemma potential_step s s' : step s = Next s' -> potential s' < potential s.
Proof.
  intros H. destruct (step_fires s s' (or_introl H)) as (e & rest & Hq & Hf).
  apply potential_fires in Hf. unfold potential in *. rewrite Hq, total_cons.
  cbn [popped set_env env env_queue machine] in Hf. lia.
Qed.

Lemma run_fuel_enough fuel s :
  potential s < fuel -> run fuel s <> OutOfFuel.
Proof.
  revert s. induction fuel as [|fuel IH]; intros s Hp; [lia|].
  cbn [run]. destruct (step s) as [s'| | |] eqn:Hs; try discriminate.
  apply IH. apply potential_step in Hs. lia.
Qed.

Lemma potential_initial c r : potential (initial c r) < RUN_BUDGET.
Proof.
  unfold potential, initial, RUN_BUDGET.
  cbn [sched set_env env schedule env_queue machine put_queue length].
  rewrite !total_heappush. cbn [callback weight]. unfold total. cbn. lia.
Qed.

(** ** A run with a well-formed random stream reaches the horizon *)

Lemma pending_trigger_put f s :
  pending f (env_queue (env s))
  <= pending f (env_queue (env (trigger_put s))).
Proof.
  destruct (env_trigger_put s) as [E|(n & a & E)]; rewrite E; [lia|].
  cbn [schedule env_queue]. rewrite pending_heappush. lia.
Qed.

Lemma pending_fires f cb s s' :
  fires cb s s' ->
  pending f (env_queue (env s)) <= pending f (env_queue (env s')).
Proof.
  intros Hf.
  destruct Hf as [s s' Hc Hl | c s s' Hl | n s | n a s Hd | n s | s | s | s];
    try destruct Hl as [Hlt Hd | Hge];
    cbn [sched set_env env schedule env_queue set_rnd spawn sample observe
         record_sample];
    rewrite ?pending_heappush; try lia.
  - unfold employee_start, request.
    etransitivity; [|apply pending_trigger_put]. cbn. lia.
  - unfold employee_served, release.
    cbn [sched set_env env schedule env_queue set_machine observe
         incr_served].
    rewrite !pending_heappush. lia.
  - apply pending_trigger_put.
Qed.

Lemma has_stop_step s s' : has_stop s -> step s = Next s' -> has_stop s'.
Proof.
  unfold has_stop. intros Hs H.
  destruct (step_fires s s' (or_introl H)) as (e & rest & Hq & Hf).
  apply (pending_fires is_stop) in Hf. cbn [popped set_env env env_queue] in Hf.
  rewrite Hq, pending_cons in Hs.
  destruct (is_stop (callback e)) eqn:E; [|cbn in Hs; lia].
  unfold step in H. rewrite Hq in H.
  destruct (callback e); try discriminate.
Qed.

Lemma rnd_trigger_put s : rnd (trigger_put s) = rnd s.
Proof.
  unfold trigger_put. destruct (put_queue (machine s)); [reflexivity|].
  now destruct (length (users (machine s)) <? capacity (machine s)).
Qed.

Lemma rnd_fires cb s s' : fires cb s s' -> stream (rnd s') = stream (rnd s).
Proof.
  intros Hf.
  destruct Hf as [s s' Hc Hl | c s s' Hl | n s | n a s Hd | n s | s | s | s];
    try destruct Hl as [Hlt Hd | Hge]; try reflexivity.
  - unfold employee_start, request. now rewrite rnd_trigger_put.
  - now rewrite rnd_trigger_put.
Qed.

Lemma rnd_step s s' :
  step s = Next s' \/ step s = Stop s' -> stream (rnd s') = stream (rnd s).
Proof.
  intros H. destruct (step_fires _ _ H) as (e & rest & Hq & Hf).
  now rewrite (rnd_fires _ _ _ Hf).
Qed.

Lemma arrival_rate_pos t : (0 < arrival_rate_at t)%Q.
Proof.
  unfold arrival_rate_at.
  destruct (_ && _); [reflexivity|]. destruct (_ && _); reflexivity.
Qed.

Lemma expovariate_nonneg lambd r :
  stream_ok r -> (0 < lambd)%Q -> (0 <= fst (expovariate lambd r))%Q.
Proof.
  intros Hr Hl. cbn [expovariate fst]. destruct (Hr (pos r)) as [_ Hn].
  apply Qle_shift_div_l; [exact Hl|]. now rewrite Qmult_0_l.
Qed.

Lemma service_time_nonneg r : stream_ok r -> (0 <= service_time r)%Q.
Proof.
  intros Hr. unfold service_time. apply Qmult_le_0_compat.
  - now apply expovariate_nonneg.
  - cbn [uniform fst advance stream pos]. destruct (Hr (S (pos r))) as [Hu _].
    assert (E : (0 <= (6 # 5) - (4 # 5))%Q) by discriminate.
    pose proof (Qmult_le_0_compat _ _ E Hu). lra.
Qed.

Lemma step_no_error s :
  stream_ok (rnd s) -> 0 < capacity (machine s) -> step s <> ValueError.
Proof.
  intros Hr Hc. unfold step.
  destruct (env_queue (env s)) as [|e rest]; [discriminate|].
  assert (Hloop : forall c s1, rnd s1 = rnd s ->
                               of_option (setup_loop c s1) <> ValueError).
  { intros c s1 E. unfold setup_loop, timeout.
    destruct (c <? EXPECTED_EMPLOYEES); [|discriminate].
    cbn [expovariate]. rewrite E.
    pose proof (expovariate_nonneg (arrival_rate_at (now (env s1))) (rnd s)
                  Hr (arrival_rate_pos _)) as Hg.
    apply Qle_bool_iff in Hg. cbn [expovariate fst] in Hg. rewrite Hg.
    discriminate. }
  destruct (callback e); cbn [dispatch]; try discriminate.
  - unfold setup_start. cbn [popped set_env machine].
    apply Nat.ltb_lt in Hc. rewrite Hc. now apply Hloop.
  - unfold setup_resume. now apply Hloop.
  - unfold employee_granted, timeout. cbn [expovariate uniform].
    pose proof (service_time_nonneg (rnd s) Hr) as Hg.
    apply Qle_bool_iff in Hg. unfold service_time in Hg.
    cbn [expovariate uniform fst] in Hg.
    cbn [rnd observe record_sample set_env].
    rewrite Hg. discriminate.
Qed.

Lemma run_reaches_stop fuel s :
  potential s < fuel -> has_stop s -> stream_ok (rnd s) ->
  0 < capacity (machine s) ->
  exists s', run fuel s = Finished s'.
Proof.
  revert s. induction fuel as [|fuel IH]; intros s Hp Hs Hr Hc; [lia|].
  cbn [run]. destruct (step s) as [s'|s'| |] eqn:E.
  - apply IH.
    + apply potential_step in E. lia.
    + eapply has_stop_step; eauto.
    + unfold stream_ok. rewrite (rnd_step s s' (or_introl E)). exact Hr.
    + rewrite (capacity_step s s' (or_introl E)). exact Hc.
  - now exists s'.
  - exfalso. unfold step in E. unfold has_stop in Hs.
    destruct (env_queue (env s)) as [|e rest].
    + unfold pending in Hs. cbn in Hs. lia.
    + destruct (callback e); cbn [dispatch] in E;
        try discriminate;
        match type of E with
        | of_option ?o = _ => destruct o; discriminate
        end.
  - exfalso. now apply (step_no_error s).
Qed.

Lemma initial_has_stop c r : has_stop (initial c r).
Proof.
  unfold has_stop, initial.
  cbn [sched set_env env schedule env_queue].
  rewrite !pending_heappush. cbn [callback is_stop]. lia.
Qed.

(** The budget is never the reason why a run ends. *)
Lemma env_run_total c r : env_run (initial c r) <> OutOfFuel.
Proof. apply run_fuel_enough, potential_initial. Qed.

Lemma env_run_finishes c r :
  0 < c -> stream_ok r -> exists s, env_run (initial c r) = Finished s.
Proof.
  intros Hc Hr. apply run_reaches_stop.
  - apply potential_initial.
  - apply initial_has_stop.
  - exact Hr.
  - exact Hc.
Qed.

(** ** Nothing is dispatched at or after the horizon *)

Lemma entry_lt_until e stop :
  is_until stop -> 2 <= entry_id e -> entry_lt e stop = true ->
  before_horizon e.
Proof.
  intros (Ht & Hp & Hi & _) He. unfold entry_lt, before_horizon.
  rewrite Hp, Hi.
  destruct (Qcompare_spec (at_time e) (at_time stop)) as [E|L|G].
  - destruct (priority e); cbn [priority_num Nat.compare].
    + intros H. apply Nat.ltb_lt in H. lia.
    + discriminate.
  - intros _. now rewrite <- Ht.
  - discriminate.
Qed.

Lemma heappush_split e pre stop post :
  is_until stop -> Forall early pre -> 2 <= entry_id e ->
  callback e <> StopSimulation ->
  exists pre' post',
    heappush e (pre ++ stop :: post) = pre' ++ stop :: post' /\
    Forall early pre'.
Proof.
  intros Hs Hpre He Hcb. induction Hpre as [|x pre Hx Hpre IH].
  - cbn [app heappush]. destruct (entry_lt e stop) eqn:Hlt.
    + exists [e], post. split; [reflexivity|].
      constructor; [|constructor].
      split; [now apply entry_lt_until with stop | exact Hcb].
    + exists [], (heappush e post). now split.
  - cbn [app heappush]. destruct (entry_lt e x) eqn:Hlt.
    + exists (e :: x :: pre), post. split; [reflexivity|].
      constructor; [|now constructor]. split; [|exact Hcb].
      apply entry_lt_true in Hlt. destruct Hx as [Hx _].
      unfold before_horizon, no_later in *.
      eapply Qle_lt_trans; eauto.
    + destruct IH as (pre' & post' & E & Hf).
      exists (x :: pre'), post'. rewrite E. split; [reflexivity|].
      now constructor.
Qed.

Lemma horizon_ahead_schedule cb p d e :
  cb <> StopSimulation ->
  horizon_ahead e -> horizon_ahead (schedule cb p d e).
Proof.
  intros Hcb (Hi & Hn & pre & stop & post & Hq & Hpre & Hs).
  unfold horizon_ahead. cbn [schedule next_eid now env_queue].
  repeat split; [lia | exact Hn |]. rewrite Hq.
  destruct (heappush_split (mkEntry (now e + d) p (next_eid e) cb)
              pre stop post Hs Hpre Hi Hcb) as (pre' & post' & E & Hf).
  now exists pre', stop, post'.
Qed.

Lemma horizon_ahead_trigger_put s :
  horizon_ahead (env s) -> horizon_ahead (env (trigger_put s)).
Proof.
  intros H. destruct (env_trigger_put s) as [E|(n & a & E)]; rewrite E.
  - exact H.
  - apply horizon_ahead_schedule; [discriminate | exact H].
Qed.

Lemma horizon_ahead_fires cb s s' :
  horizon_ahead (env s) -> fires cb s s' -> horizon_ahead (env s').
Proof.
  intros Hs Hf.
  destruct Hf as [s s' Hc Hl | c s s' Hl | n s | n a s Hd | n s | s | s | s];
    try destruct Hl as [Hlt Hd | Hge];
    try exact Hs;
    repeat (apply horizon_ahead_schedule; [discriminate|]); try exact Hs.
  - unfold employee_start, request. apply horizon_ahead_trigger_put. exact Hs.
  - now apply horizon_ahead_trigger_put.
Qed.

Lemma horizon_ahead_step s s' :
  horizon_ahead (env s) -> step s = Next s' -> horizon_ahead (env s').
Proof.
  intros (Hi & Hn & pre & stop & post & Hq & Hpre & Hs) H.
  unfold step in H. rewrite Hq in H. destruct pre as [|x pre].
  - cbn [app] in H. destruct Hs as (_ & _ & _ & Hc). rewrite Hc in H.
    discriminate.
  - cbn [app] in H.
    apply horizon_ahead_fires
      with (cb := callback x)
           (s := set_env (mkEnv (at_time x) (next_eid (env s))
                                (pre ++ stop :: post)) s).
    + inversion Hpre as [|? ? [Hx _] Hrest]; subst.
      repeat split; cbn; try assumption.
      now exists pre, stop, post.
    + apply dispatch_fires. now left.
Qed.

Lemma horizon_ahead_initial c r : horizon_ahead (env (initial c r)).
Proof.
  unfold horizon_ahead, initial.
  split; [cbn; lia|]. split; [exact eq_refl|].
  exists [mkEntry (0 + 0) URGENT 0 SetupStart],
         (mkEntry (0 + (SIMULATION_DURATION - 0)) URGENT 1 StopSimulation),
         [].
  split; [reflexivity|]. split.
  - constructor; [|constructor]. split; [exact eq_refl | discriminate].
  - unfold is_until. cbn [at_time priority entry_id callback].
    repeat split; reflexivity.
Qed.

(** ** What holds at every point of a run *)

Lemma sound_initial c r : sound c (initial c r).
Proof.
  constructor.
  - reflexivity.
  - unfold within_capacity. cbn. lia.
  - unfold samples_consistent, initial. split; [reflexivity|].
    cbn [sched set_env env schedule env_queue served_count wait_times length].
    rewrite !pending_heappush. reflexivity.
  - unfold initial. cbn [sched set_env env].
    apply env_ok_schedule; [discriminate|].
    apply env_ok_schedule; [discriminate|].
    split; constructor.
  - reflexivity.
  - unfold slot_accounted. cbn. congruence.
  - unfold initial. cbn [sched set_env env].
    apply triggers_now_schedule; [discriminate|].
    apply triggers_now_schedule; [discriminate|].
    constructor.
  - unfold starts_accounted, initial.
    cbn [sched set_env env schedule env_queue trace].
    rewrite !pending_starts_heappush. reflexivity.
  - exists 0. unfold generator_ok, initial.
    cbn [sched set_env env schedule env_queue trace].
    rewrite !pending_heappush. repeat split; try reflexivity; [lia|].
    apply Forall_heappush; [exact I|].
    apply Forall_heappush; [reflexivity | constructor].
Qed.

Lemma sound_step c s s' :
  sound c s -> step s = Next s' \/ step s = Stop s' -> sound c s'.
Proof.
  intros [Hc Hw Hsm He Hd Hsl Ht Hst [k Hg]] H. constructor.
  - now rewrite (capacity_step _ _ H).
  - eapply within_capacity_step; eauto.
  - eapply samples_consistent_step; eauto.
  - eapply env_ok_step; eauto.
  - eapply queue_discipline_step; eauto.
  - eapply slot_accounted_step; eauto.
  - eapply triggers_now_step; eauto.
  - eapply starts_accounted_step; eauto.
  - eapply generator_ok_step; eauto.
Qed.

Lemma sound_after c r n st s :
  after n (initial c r) = Some (st, s) -> sound c s.
Proof.
  apply after_invariant; [apply sound_initial | apply sound_step].
Qed.

(** The point before a given one. *)
Lemma after_previous n s0 st s :
  after (S n) s0 = Some (st, s) ->
  exists s1, after n s0 = Some (Running, s1) /\
             ((st = Running /\ step s1 = Next s) \/
              (st = Halted /\ step s1 = Stop s)).
Proof.
  cbn [after]. destruct (after n s0) as [[[|] s1]|]; try discriminate.
  cbn [advance_run]. destruct (step s1) eqn:E; try discriminate;
    intros H; injection H as <- <-; exists s1; auto.
Qed.

Lemma running_invariant (P : Sim -> Prop) s0 :
  P s0 -> (forall s s', P s -> step s = Next s' -> P s') ->
  forall n s, after n s0 = Some (Running, s) -> P s.
Proof.
  intros H0 Hstep. induction n as [|n IH]; intros s H.
  - cbn in H. now injection H as <-.
  - apply after_previous in H. destruct H as (s1 & H1 & [[_ E]|[E _]]).
    + apply (Hstep s1 s); [now apply IH | exact E].
    + discriminate.
Qed.

Lemma horizon_ahead_running c r n s :
  after n (initial c r) = Some (Running, s) -> horizon_ahead (env s).
Proof.
  apply (running_invariant (fun s => horizon_ahead (env s))).
  - apply horizon_ahead_initial.
  - intros s1 s2. apply horizon_ahead_step.
Qed.

(** [run] visits the points of [after]. *)
Lemma after_shift n s0 s1 :
  step s0 = Next s1 -> after (S n) s0 = after n s1.
Proof.
  intros H. induction n as [|n IH].
  - cbn [after advance_run]. now rewrite H.
  - change (after (S (S n)) s0)
      with (match after (S n) s0 with
            | Some p => advance_run p
            | None => None
            end).
    now rewrite IH.
Qed.

Lemma run_after fuel s0 s :
  run fuel s0 = Finished s -> exists n, after n s0 = Some (Halted, s).
Proof.
  revert s0. induction fuel as [|fuel IH]; intros s0; [discriminate|].
  cbn [run]. destruct (step s0) as [s1|s1| |] eqn:E; try discriminate.
  - intros H. destruct (IH _ H) as [n Hn].
    exists (S n). now rewrite (after_shift n s0 s1 E).
  - intros H. injection H as <-. exists 1. cbn [after advance_run].
    now rewrite E.
Qed.

(** ** Completed runs *)

Lemma simulate_after c r s :
  simulate c r = Some s -> exists n, after n (initial c r) = Some (Halted, s).
Proof.
  unfold simulate, env_run.
  destruct (run RUN_BUDGET (initial c r)) as [s'| |] eqn:E; try discriminate.
  intros H. injection H as <-. now apply run_after with RUN_BUDGET.
Qed.

Lemma simulate_sound c r s : simulate c r = Some s -> sound c s.
Proof.
  intros H. destruct (simulate_after _ _ _ H) as [n Hn].
  now apply sound_after with r n Halted.
Qed.

Lemma simulate_stream c r s :
  simulate c r = Some s -> stream (rnd s) = stream r.
Proof.
  intros H. destruct (simulate_after _ _ _ H) as [n Hn].
  revert Hn.
  apply (after_invariant (fun s => stream (rnd s) = stream r));
    [reflexivity|].
  intros s1 s2 H1 H2. now rewrite (rnd_step _ _ H2).
Qed.

Lemma simulate_total c r :
  0 < c -> stream_ok r -> exists s, simulate c r = Some s.
Proof.
  intros Hc Hr. destruct (env_run_finishes c r Hc Hr) as [s Hs].
  exists s. unfold simulate. now rewrite Hs.
Qed.

Lemma Q_of_nat_pos n : 0 < n -> ~ (Q_of_nat n == 0)%Q.
Proof.
  intros Hn. unfold Q_of_nat, Qeq. cbn. lia.
Qed.

(** ** Utilization *)

Lemma utilization_formula c wt :
  0 < c ->
  (utilization wt c * (SIMULATION_DURATION * Q_of_nat c)
   == Q_of_nat (length wt) * SERVICE_RATE)%Q.
Proof.
  intros Hc. unfold utilization.
  pose proof (Q_of_nat_pos c Hc) as Hne.
  field. split; [exact Hne | discriminate].
Qed.

(** Line 68 does not compute the specified value.  With three arrivals
    of which two complete, the reported utilization is 3/43200 while the
    specified formula gives 2*12/3600. *)
Lemma utilization_not_as_specified :
  ~ utilization_as_specified 1 three_arrivals.
Proof.
  intros H.
  assert (E : simulate 1 three_arrivals
              = Some (final_state 1 three_arrivals))
    by (vm_compute; reflexivity).
  apply H in E. revert E. vm_compute. discriminate.
Qed.

(** The reported value is [samples / 12] over horizon times capacity, the
    specified one [completions * 12] over the same: they agree only in a
    run that records exactly 144 samples per completion (or none at
    all). *)
Lemma utilization_agreement c r s :
  0 < c -> simulate c r = Some s ->
  (rep_utilization (report c s) == spec_utilization (served_count s) c)%Q
  <-> length (wait_times s) = 144 * served_count s.
Proof.
  intros Hc _. cbn [report rep_utilization].
  unfold utilization, spec_utilization, mean_service_time.
  unfold SIMULATION_DURATION, SERVICE_RATE.
  pose proof (Q_of_nat_pos c Hc) as Hne.
  set (a := length (wait_times s)). set (b := served_count s).
  assert (Hab : (Q_of_nat a == 144 * Q_of_nat b)%Q <-> a = 144 * b).
  { unfold Q_of_nat. change 144%Q with (inject_Z 144).
    rewrite <- inject_Z_mult, inject_Z_injective. lia. }
  rewrite <- Hab. split; intros H.
  - assert (E : (Q_of_nat a
                 == Q_of_nat a / ((3600 # 1) * Q_of_nat c) * (1 # 12)
                    * (43200 * Q_of_nat c))%Q).
    { field. exact Hne. }
    rewrite E, H. field. exact Hne.
  - rewrite H. field. exact Hne.
Qed.

(** C1: the script does not compute the utilization the formula defines.
    Line 68 multiplies the count by [SERVICE_RATE], the rate 1/12 per
    second, where the formula has the mean service time, 12 seconds (the
    comment on line 9 calls the constant the average service time).  With
    one machine and a single entity, which arrives at time 1 and is served
    in 10 seconds, one wait time is recorded and one entity completes, so
    the count is 1 however it is taken: the script reports 1/43200 where
    the formula gives 12/3600. *)
Theorem utilization_uses_rate_as_time :
  simulate 1 one_arrival = Some (final_state 1 one_arrival) /\
  served_count (final_state 1 one_arrival) = 1 /\
  length (wait_times (final_state 1 one_arrival)) = 1 /\
  (rep_utilization (report 1 (final_state 1 one_arrival)) == 1 # 43200)%Q /\
  (spec_utilization (served_count (final_state 1 one_arrival)) 1
   == 12 # 3600)%Q.
Proof.
  vm_compute. repeat split.
Qed.

(** ** Averages *)

Lemma sum_from a l : (fold_left Qplus l a == a + fold_right Qplus 0 l)%Q.
Proof.
  revert a. induction l as [|x l IH]; intros a; cbn [fold_left fold_right].
  - now rewrite Qplus_0_r.
  - rewrite IH. now rewrite Qplus_assoc.
Qed.

Lemma sum_is_total l : (sum l == fold_right Qplus 0 l)%Q.
Proof. unfold sum. rewrite sum_from. apply Qplus_0_l. Qed.

Lemma sum_int_from a l : fold_left Nat.add l a = a + list_sum l.
Proof.
  revert a. induction l as [|x l IH]; intros a.
  - cbn. lia.
  - cbn [fold_left]. rewrite IH. unfold list_sum. cbn [fold_right]. lia.
Qed.

Lemma Q_of_nat_total l :
  (Q_of_nat (sum_int l) == fold_right Qplus 0 (map Q_of_nat l))%Q.
Proof.
  unfold sum_int. rewrite sum_int_from. cbn [Nat.add].
  induction l as [|x l IH]; cbn -[Qplus Q_of_nat].
  - reflexivity.
  - rewrite <- IH. unfold Q_of_nat.
    now rewrite Nat2Z.inj_add, inject_Z_plus.
Qed.

(** C4: in every completed run the reported average wait time is the
    arithmetic mean of the recorded wait times and the reported average
    queue length the arithmetic mean of the recorded queue lengths; each is
    0 when nothing was recorded. *)
Theorem averages_are_means c r s :
  simulate c r = Some s ->
  (wait_times s = [] -> rep_wait_time (report c s) = 0%Q) /\
  (wait_times s <> [] ->
   (rep_wait_time (report c s) == arithmetic_mean (wait_times s))%Q) /\
  (queue_lengths s = [] -> rep_queue_length (report c s) = 0%Q) /\
  (queue_lengths s <> [] ->
   (rep_queue_length (report c s)
    == arithmetic_mean (map Q_of_nat (queue_lengths s)))%Q).
Proof.
  intros _. cbn [report rep_wait_time rep_queue_length].
  unfold avg_wait_time, avg_queue_length, arithmetic_mean.
  repeat split.
  - now intros ->.
  - destruct (wait_times s) as [|w l]; [congruence|]. intros _.
    now rewrite sum_is_total.
  - now intros ->.
  - destruct (queue_lengths s) as [|q l]; [congruence|]. intros _.
    now rewrite Q_of_nat_total, length_map.
Qed.

Lemma averages_are_means_witness :
  (wait_times (final_state 1 three_arrivals) = [] ->
   rep_wait_time (report 1 (final_state 1 three_arrivals)) = 0%Q) /\
  (wait_times (final_state 1 three_arrivals) <> [] ->
   (rep_wait_time (report 1 (final_state 1 three_arrivals))
    == arithmetic_mean (wait_times (final_state 1 three_arrivals)))%Q) /\
  (queue_lengths (final_state 1 three_arrivals) = [] ->
   rep_queue_length (report 1 (final_state 1 three_arrivals)) = 0%Q) /\
  (queue_lengths (final_state 1 three_arrivals) <> [] ->
   (rep_queue_length (report 1 (final_state 1 three_arrivals))
    == arithmetic_mean
         (map Q_of_nat (queue_lengths (final_state 1 three_arrivals))))%Q).
Proof.
  apply (averages_are_means 1 three_arrivals (final_state 1 three_arrivals)).
  vm_compute. reflexivity.
Defined.

(** ** Samples against completions *)

(** C9: at every point of a run the two sample lists have the same length
    and the completion counter is at most that length; the entity count of
    the utilization is that length, so it includes entities whose service
    started but did not complete within the run, and such runs exist. *)
Theorem samples_bound_completions :
  (forall c r n st s,
      after n (initial c r) = Some (st, s) ->
      length (wait_times s) = length (queue_lengths s) /\
      served_count s <= length (wait_times s)) /\
  (forall c s,
      0 < c ->
      (rep_utilization (report c s) * (SIMULATION_DURATION * Q_of_nat c)
       == Q_of_nat (length (wait_times s)) * SERVICE_RATE)%Q) /\
  (exists c r s,
      simulate c r = Some s /\ served_count s < length (wait_times s)).
Proof.
  repeat split.
  - now destruct (sound_samples _ _ (sound_after _ _ _ _ _ H)).
  - destruct (sound_samples _ _ (sound_after _ _ _ _ _ H)) as [_ E]. lia.
  - intros c s Hc. cbn [report rep_utilization]. unfold utilization.
    pose proof (Q_of_nat_pos c Hc) as Hne.
    field. split; [exact Hne | discriminate].
  - exists 1, three_arrivals, (final_state 1 three_arrivals).
    split; vm_compute; [reflexivity | lia].
Qed.

Lemma samples_bound_completions_witness :
  length (wait_times (final_state 1 three_arrivals))
  = length (queue_lengths (final_state 1 three_arrivals)) /\
  served_count (final_state 1 three_arrivals)
  <= length (wait_times (final_state 1 three_arrivals)).
Proof.
  destruct (simulate_after 1 three_arrivals (final_state 1 three_arrivals))
    as [n Hn]; [vm_compute; reflexivity|].
  exact (proj1 samples_bound_completions 1 three_arrivals n Halted
               (final_state 1 three_arrivals) Hn).
Defined.

(** ** The parameter sweep *)

Lemma sweep_reports configs g :
  Forall (fun c => 0 < c) configs -> stream_ok (random g) ->
  exists g' reports,
    sweep configs g = Some g' /\
    stream_ok (random g') /\
    Forall2 reported_by configs reports /\
    res_num_machines (results g')
    = res_num_machines (results g) ++ map rep_num_machines reports /\
    res_wait_times (results g')
    = res_wait_times (results g) ++ map rep_wait_time reports /\
    res_queue_lengths (results g')
    = res_queue_lengths (results g) ++ map rep_queue_length reports /\
    res_utilization (results g')
    = res_utilization (results g) ++ map rep_utilization reports /\
    res_throughput (results g')
    = res_throughput (results g) ++ map rep_throughput reports.
Proof.
  intros Hpos. revert g. induction Hpos as [|c configs Hc Hpos IH]; intros g Hr.
  - exists g, []. cbn [sweep map]. rewrite !app_nil_r.
    split; [reflexivity|]. split; [exact Hr|]. split; [constructor|].
    repeat split.
  - destruct (simulate_total c (random g) Hc Hr) as [s Hs].
    assert (Hr' : stream_ok (rnd s)).
    { unfold stream_ok. now rewrite (simulate_stream _ _ _ Hs). }
    cbn [sweep]. unfold scenario. rewrite Hs.
    destruct (IH (mkGlobals (rnd s) (store (report c s) (results g))) Hr')
      as (g' & reports & E & Hok & Hrep & H1 & H2 & H3 & H4 & H5).
    exists g', (report c s :: reports). rewrite E.
    cbn [results store res_num_machines res_wait_times res_queue_lengths
         res_utilization res_throughput] in *.
    rewrite H1, H2, H3, H4, H5, <- !app_assoc. cbn [map app].
    split; [reflexivity|]. split; [exact Hok|].
    split; [constructor; [now exists (random g), s | exact Hrep]|].
    repeat split.
Qed.

(** C10: with a well-formed random stream the sweep completes, and each
    of the five result lists then holds exactly one entry per configured
    capacity, in the order [1; 3; 5; 7; 10]: the five lists are the five
    columns of five reports, the i-th of which is the report of a completed
    run with the i-th capacity. *)
Theorem sweep_fills_results r :
  stream_ok r ->
  exists g reports,
    main r = Some g /\
    Forall2 reported_by [1; 3; 5; 7; 10] reports /\
    res_num_machines (results g) = [1; 3; 5; 7; 10] /\
    res_num_machines (results g) = map rep_num_machines reports /\
    res_wait_times (results g) = map rep_wait_time reports /\
    res_queue_lengths (results g) = map rep_queue_length reports /\
    res_utilization (results g) = map rep_utilization reports /\
    res_throughput (results g) = map rep_throughput reports /\
    length (res_num_machines (results g)) = 5 /\
    length (res_wait_times (results g)) = 5 /\
    length (res_queue_lengths (results g)) = 5 /\
    length (res_utilization (results g)) = 5 /\
    length (res_throughput (results g)) = 5.
Proof.
  intros Hr. unfold main.
  destruct (sweep_reports [1; 3; 5; 7; 10] (mkGlobals r no_results))
    as (g & reports & E & _ & Hrep & H1 & H2 & H3 & H4 & H5).
  { repeat constructor. }
  { exact Hr. }
  cbn [results no_results res_num_machines res_wait_times res_queue_lengths
       res_utilization res_throughput app] in *.
  exists g, reports.
  assert (Hn : map rep_num_machines reports = [1; 3; 5; 7; 10]).
  { clear - Hrep. induction Hrep as [|c p cs ps Hp _ IH]; [reflexivity|].
    cbn [map]. rewrite IH. destruct Hp as (r & s & _ & _ & ->). reflexivity. }
  assert (Hl : length reports = 5).
  { rewrite <- (length_map rep_num_machines), Hn. reflexivity. }
  rewrite H1, H2, H3, H4, H5, !length_map.
  split; [exact E|]. split; [exact Hrep|]. split; [exact Hn|].
  repeat split; assumption.
Qed.

Lemma three_arrivals_ok : stream_ok three_arrivals.
Proof.
  intros n. unfold three_arrivals, draws, stream.
  do 9 (destruct n as [|n]; [split; discriminate|]).
  destruct n; split; discriminate.
Qed.

Lemma sweep_fills_results_witness :
  exists g reports,
    main three_arrivals = Some g /\
    Forall2 reported_by [1; 3; 5; 7; 10] reports /\
    res_num_machines (results g) = [1; 3; 5; 7; 10] /\
    res_num_machines (results g) = map rep_num_machines reports /\
    res_wait_times (results g) = map rep_wait_time reports /\
    res_queue_lengths (results g) = map rep_queue_length reports /\
    res_utilization (results g) = map rep_utilization reports /\
    res_throughput (results g) = map rep_throughput reports /\
    length (res_num_machines (results g)) = 5 /\
    length (res_wait_times (results g)) = 5 /\
    length (res_queue_lengths (results g)) = 5 /\
    length (res_utilization (results g)) = 5 /\
    length (res_throughput (results g)) = 5.
Proof.
  apply (sweep_fills_results three_arrivals). exact three_arrivals_ok.
Defined.

(** ** Scenario isolation *)

Lemma scenario_latest c g :
  option_map latest (scenario c g)
  = option_map (report c) (simulate c (random g)).
Proof.
  unfold scenario. destruct (simulate c (random g)) as [s|]; [|reflexivity].
  cbn [option_map]. unfold latest. cbn [results store res_num_machines
    res_wait_times res_queue_lengths res_utilization res_throughput].
  now rewrite !last_last.
Qed.

Lemma launch_fresh c r : launch c (mkEnv 0 0 []) r [] [] 0 = Some (initial c r).
Proof. reflexivity. Qed.

(** The loop body, seen from outside, is [scenario]. *)
Lemma loop_body_scenario c ns :
  option_map globals_of (loop_body c ns) = scenario c (globals_of ns).
Proof.
  unfold loop_body, run_and_store, scenario, simulate.
  cbn [bind_served_count bind_queue_lengths bind_wait_times bind_env
       bind_num_machines ns_num_machines ns_env ns_wait_times
       ns_queue_lengths ns_served_count ns_random ns_results globals_of
       random results].
  rewrite launch_fresh.
  now destruct (env_run (initial c (ns_random ns))).
Qed.

Lemma loop_sweep configs ns :
  option_map globals_of (loop configs ns) = sweep configs (globals_of ns).
Proof.
  revert ns. induction configs as [|c configs IH]; intros ns; [reflexivity|].
  cbn [loop sweep]. rewrite <- loop_body_scenario.
  destruct (loop_body c ns) as [ns'|]; [apply IH | reflexivity].
Qed.

Lemma script_main r : option_map globals_of (script r) = main r.
Proof. apply loop_sweep. Qed.

(** What the loop body makes of the names it has bound. *)
Lemma loop_body_run c ns :
  loop_body c ns
  = match simulate c (ns_random ns) with
    | Some s =>
        Some (mkNamespace (rnd s) (store (report c s) (ns_results ns))
                          (Some c) (Some (env s)) (Some (wait_times s))
                          (Some (queue_lengths s)) (Some (served_count s)))
    | None => None
    end.
Proof.
  unfold loop_body, run_and_store, simulate.
  cbn [bind_served_count bind_queue_lengths bind_wait_times bind_env
       bind_num_machines ns_num_machines ns_env ns_wait_times
       ns_queue_lengths ns_served_count ns_random ns_results].
  rewrite launch_fresh.
  now destruct (env_run (initial c (ns_random ns))).
Qed.

(** C8: an iteration of the loop binds [num_machines], [env],
    [wait_times], [queue_lengths] and [served_count] before it reads them,
    so nothing it does depends on what they were bound to.  Two states of
    the module that agree on the random stream get the same entry appended
    by the capacity-[c] scenario, and are left with the five names bound to
    the same values and with the same random stream, whatever environment,
    lists, counter and results they held before.  In particular the
    capacity-3 scenario appends the same entry on the module as imported
    and on the module as the capacity-5 scenario leaves it, once the random
    stream is set to the same value. *)
Theorem scenario_isolation c ns1 ns2 :
  ns_random ns1 = ns_random ns2 ->
  option_map appended (loop_body c ns1) = option_map appended (loop_body c ns2) /\
  option_map bindings (loop_body c ns1) = option_map bindings (loop_body c ns2) /\
  option_map ns_random (loop_body c ns1)
  = option_map ns_random (loop_body c ns2).
Proof.
  intros H. rewrite !loop_body_run, H.
  destruct (simulate c (ns_random ns2)) as [s|]; [|repeat split].
  cbn [option_map]. unfold appended, latest, bindings, globals_of.
  cbn [results store res_num_machines res_wait_times res_queue_lengths
       res_utilization res_throughput ns_results ns_random ns_num_machines
       ns_env ns_wait_times ns_queue_lengths ns_served_count].
  rewrite !last_last. repeat split.
Qed.

Lemma scenario_isolation_witness :
  option_map appended (loop_body 3 (at_import three_arrivals))
  = option_map appended (loop_body 3 (reseed three_arrivals left_by_five)) /\
  option_map bindings (loop_body 3 (at_import three_arrivals))
  = option_map bindings (loop_body 3 (reseed three_arrivals left_by_five)) /\
  option_map ns_random (loop_body 3 (at_import three_arrivals))
  = option_map ns_random (loop_body 3 (reseed three_arrivals left_by_five)).
Proof.
  apply (scenario_isolation 3 (at_import three_arrivals)
                            (reseed three_arrivals left_by_five)).
  reflexivity.
Defined.

(** The capacity-5 scenario leaves the names bound to an environment
    whose clock reads the horizon and whose heap still holds the generator's
    next wake-up, to a non-empty sample list and to a counter of 1. *)
Lemma names_left_bound :
  exists e wt,
    ns_env left_by_five = Some e /\ (now e == SIMULATION_DURATION)%Q /\
    env_queue e <> [] /\
    ns_wait_times left_by_five = Some wt /\ wt <> [] /\
    ns_served_count left_by_five = Some 1.
Proof.
  eexists. eexists. vm_compute.
  split; [reflexivity|]. split; [reflexivity|]. split; [discriminate|].
  split; [reflexivity|]. split; [discriminate | reflexivity].
Qed.

(** Lines 62-76 do read the names: on the names as the capacity-5 scenario
    leaves them [env.run] refuses the horizon, which the clock of that
    environment has reached.  The iteration is independent of them because
    lines 56-59 bind them first. *)
Lemma rebinding_matters :
  run_and_store (bind_num_machines 3 (reseed three_arrivals left_by_five))
  = None /\
  loop_body 3 (reseed three_arrivals left_by_five) <> None.
Proof.
  split; [vm_compute; reflexivity | vm_compute; discriminate].
Qed.

(** Induction over the points of a run, with what is known of the point
    before. *)
Lemma run_induction c r (P : Sim -> Prop) :
  P (initial c r) ->
  (forall s s',
      sound c s -> horizon_ahead (env s) -> P s ->
      step s = Next s' \/ step s = Stop s' -> P s') ->
  forall n st s, after n (initial c r) = Some (st, s) -> P s.
Proof.
  intros H0 Hstep. induction n as [|n IH]; intros st s H.
  - cbn in H. now injection H as _ <-.
  - apply after_previous in H. destruct H as (s1 & H1 & Hs).
    apply (Hstep s1 s).
    + now apply sound_after with r n Running.
    + now apply horizon_ahead_running with c r n.
    + now apply IH with Running.
    + destruct Hs as [[_ E]|[_ E]]; auto.
Qed.

Lemma popped_before_horizon s e rest :
  horizon_ahead (env s) -> env_queue (env s) = e :: rest ->
  callback e <> StopSimulation -> before_horizon e.
Proof.
  intros (_ & _ & pre & stop & post & Hq & Hpre & Hs) E Hne.
  rewrite Hq in E. destruct pre as [|x pre]; cbn [app] in E.
  - injection E as <- _. now destruct Hs as (_ & _ & _ & Hc).
  - injection E as <- _. inversion Hpre as [|? ? [Hx _] _]; subst. exact Hx.
Qed.

(** What does pass from one scenario to the next is the position in the
    random stream: left as the capacity-5 scenario leaves it, the stream
    gives the capacity-3 scenario other draws and another entry. *)
Lemma stream_position_is_shared :
  option_map latest (scenario 3 after_five)
  <> option_map latest (scenario 3 (mkGlobals one_arrival no_results)).
Proof.
  vm_compute. discriminate.
Qed.

(** ** The arrival generator *)

Lemma spawn_times_trigger_put s :
  spawn_times_ok s -> spawn_times_ok (trigger_put s).
Proof.
  unfold spawn_times_ok. intros H.
  destruct (trace_trigger_put s) as [E|(n & t & E)]; rewrite E; [exact H|].
  apply Forall_app. split; [exact H | now repeat constructor].
Qed.

Lemma spawn_times_fires cb s s' :
  (cb <> StopSimulation -> (now (env s) < SIMULATION_DURATION)%Q) ->
  spawn_times_ok s -> fires cb s s' -> spawn_times_ok s'.
Proof.
  intros Hn Hs Hf.
  destruct Hf as [s s' Hc Hl | c s s' Hl | n s | n a s Hd | n s | s | s | s];
    try destruct Hl as [Hlt Hd | Hge]; try exact Hs;
    unfold spawn_times_ok in *;
    cbn [trace sched set_env set_rnd spawn sample observe record_sample];
    try (apply Forall_app; split; [exact Hs|]; repeat constructor;
         apply Hn; discriminate).
  - apply spawn_times_trigger_put. unfold spawn_times_ok. cbn [trace observe
      set_machine]. apply Forall_app. split; [exact Hs | now repeat constructor].
  - now apply spawn_times_trigger_put.
Qed.

Lemma spawn_times_after c r n st s :
  after n (initial c r) = Some (st, s) -> spawn_times_ok s.
Proof.
  apply run_induction.
  - constructor.
  - intros s1 s2 _ Hh Hs H.
    destruct (step_fires _ _ H) as (e & rest & Hq & Hf).
    apply spawn_times_fires with (cb := callback e) (s := popped e rest s1);
      [| exact Hs | exact Hf].
    intros Hne. cbn [popped set_env env now].
    now apply popped_before_horizon with s1 rest.
Qed.

(** C3, as stated, fails: the horizon ends a run in which three entities
    were spawned and the fourth arrival was due at time 4003. *)
Lemma horizon_stops_spawning : ~ spawns_to_target 1 three_arrivals.
Proof.
  intros H.
  assert (E : simulate 1 three_arrivals
              = Some (final_state 1 three_arrivals))
    by (vm_compute; reflexivity).
  apply H in E. revert E. vm_compute. discriminate.
Qed.

(** C3, amended: the generator itself looks at the count only.  Resumed
    at any clock value with the next entity still below the target, it
    spawns that entity and schedules its next wake-up; resumed for the
    last entity, it spawns it and schedules no further wake-up.  In a run
    the entities spawned are numbered 1, 2, ... and never exceed the
    target, and every spawn happens strictly before the horizon, at which
    the run stops whether or not the target was reached. *)
Theorem generator_counts_to_target :
  (forall s c,
      stream_ok (rnd s) -> S c < EXPECTED_EMPLOYEES ->
      exists s',
        dispatch (SetupResume c) s = Next s' /\
        spawned (trace s') = spawned (trace s) ++ [S c] /\
        pending is_setup (env_queue (env s'))
        = S (pending is_setup (env_queue (env s))) /\
        In (SetupResume (S c)) (map callback (env_queue (env s')))) /\
  (forall s c,
      EXPECTED_EMPLOYEES <= S c ->
      exists s',
        dispatch (SetupResume c) s = Next s' /\
        spawned (trace s') = spawned (trace s) ++ [S c] /\
        pending is_setup (env_queue (env s'))
        = pending is_setup (env_queue (env s))) /\
  (forall c r n st s,
      after n (initial c r) = Some (st, s) ->
      (exists k, spawned (trace s) = seq 1 k /\ k <= EXPECTED_EMPLOYEES) /\
      (forall name t, In (Spawned name t) (trace s) ->
                      (t < SIMULATION_DURATION)%Q)).
Proof.
  split; [|split].
  - intros s c Hr Hc. cbn [dispatch]. unfold setup_resume, setup_loop, timeout.
    apply Nat.ltb_lt in Hc. rewrite Hc. cbn [expovariate].
    pose proof (expovariate_nonneg
                  (arrival_rate_at
                     (now (env (sched (EmployeeStart (S c)) URGENT 0
                                  (observe (Spawned (S c) (now (env s))) s)))))
                  (rnd s) Hr (arrival_rate_pos _)) as Hg.
    apply Qle_bool_iff in Hg. cbn [expovariate fst] in Hg.
    cbn [rnd sched set_env observe] in *. rewrite Hg. cbn [of_option].
    eexists. split; [reflexivity|].
    cbn [trace sched set_env set_rnd observe env schedule env_queue].
    rewrite spawned_snoc, !pending_heappush. cbn [callback is_setup].
    repeat split.
    apply in_map_iff. eexists. split; [|apply In_heappush; left; reflexivity].
    reflexivity.
  - intros s c Hc. cbn [dispatch]. unfold setup_resume, setup_loop.
    apply Nat.ltb_ge in Hc. rewrite Hc. cbn [of_option].
    eexists. split; [reflexivity|].
    cbn [trace sched set_env observe env schedule env_queue].
    rewrite spawned_snoc, !pending_heappush. cbn [callback is_setup].
    now split.
  - intros c r n st s H. split.
    + destruct (sound_generator _ _ (sound_after _ _ _ _ _ H))
        as (k & Hk & Hle & _).
      now exists k.
    + intros name t Hin.
      pose proof (spawn_times_after _ _ _ _ _ H) as Hs.
      unfold spawn_times_ok in Hs. rewrite Forall_forall in Hs.
      exact (Hs _ Hin).
Qed.

Lemma generator_counts_to_target_witness :
  (exists k, spawned (trace (final_state 1 three_arrivals)) = seq 1 k /\
             k <= EXPECTED_EMPLOYEES) /\
  (forall name t,
      In (Spawned name t) (trace (final_state 1 three_arrivals)) ->
      (t < SIMULATION_DURATION)%Q).
Proof.
  destruct (simulate_after 1 three_arrivals (final_state 1 three_arrivals))
    as [n Hn]; [vm_compute; reflexivity|].
  exact (proj2 (proj2 generator_counts_to_target) 1 three_arrivals n Halted
               (final_state 1 three_arrivals) Hn).
Defined.

(** ** Capacity and prompt grants *)

Lemma pending_positive f h :
  0 < pending f h -> exists e, In e h /\ f (callback e) = true.
Proof.
  induction h as [|x h IH]; [unfold pending; cbn; lia|].
  rewrite pending_cons. destruct (f (callback x)) eqn:E.
  - intros _. exists x. split; [now left | exact E].
  - intros H. destruct (IH H) as (e & He & Hf).
    exists e. split; [now right | exact Hf].
Qed.


(** ** First come, first served *)

Arguments grant_log : simpl never.

Lemma grant_log_snoc tr o :
  grant_log (tr ++ [o])
  = grant_log tr ++ match o with Granted n t => [(n, t)] | _ => [] end.
Proof. unfold grant_log. rewrite flat_map_app. cbn. now rewrite app_nil_r. Qed.

Lemma granted_grant_log tr : granted tr = map fst (grant_log tr).
Proof.
  unfold granted, grant_log. induction tr as [|o tr IH]; [reflexivity|].
  cbn [flat_map]. rewrite map_app, IH. now destruct o.
Qed.

Lemma sorted_snoc {A : Type} (R : A -> A -> Prop) l y :
  StronglySorted R l -> Forall (fun x => R x y) l ->
  StronglySorted R (l ++ [y]).
Proof.
  induction 1 as [|x l Hs IH Hx]; intros Hy; cbn [app].
  - repeat constructor.
  - inversion Hy; subst. constructor; [now apply IH|].
    apply Forall_app. split; [exact Hx | now repeat constructor].
Qed.

Lemma sorted_precedes {A : Type} (R : A -> A -> Prop) l a b :
  StronglySorted R l -> precedes l a b -> R a b.
Proof.
  intros Hs (l1 & l2 & l3 & ->).
  induction l1 as [|x l1 IH]; cbn [app] in Hs.
  - inversion Hs as [|? ? _ Hf]; subst.
    rewrite Forall_forall in Hf. apply Hf, in_elt.
  - inversion Hs; subst. now apply IH.
Qed.

Lemma grants_timed_frame s s' :
  grant_log (trace s') = grant_log (trace s) ->
  (now (env s) <= now (env s'))%Q ->
  grants_timed s -> grants_timed s'.
Proof.
  unfold grants_timed. intros -> Hn [Hs Hf]. split; [exact Hs|].
  eapply Forall_impl; [|exact Hf]. intros x Hx. cbn beta in *.
  eapply Qle_trans; eauto.
Qed.

Lemma grants_timed_trigger_put s :
  grants_timed s -> grants_timed (trigger_put s).
Proof.
  intros [Hs Hf]. unfold grants_timed. rewrite now_trigger_put.
  unfold trigger_put. destruct (put_queue (machine s)) as [|r q];
    [now split|].
  destruct (length (users (machine s)) <? capacity (machine s));
    [|now split].
  cbn [trace sched set_env observe set_machine]. rewrite grant_log_snoc.
  split.
  - apply sorted_snoc; [exact Hs | exact Hf].
  - apply Forall_app. split; [exact Hf|].
    constructor; [apply Qle_refl | constructor].
Qed.

Lemma grants_timed_fires cb s s' :
  grants_timed s -> fires cb s s' -> grants_timed s'.
Proof.
  intros Hs Hf.
  destruct Hf as [s s' Hc Hl | c s s' Hl | n s | n a s Hd | n s | s | s | s];
    try destruct Hl as [Hlt Hd | Hge]; try exact Hs;
    try (apply grants_timed_frame with s;
         [cbn [trace sched set_env set_rnd spawn sample observe record_sample
               employee_served release set_machine incr_served];
          rewrite ?grant_log_snoc, ?app_nil_r; reflexivity
         | apply Qle_refl | exact Hs]).
  - unfold employee_start, request. apply grants_timed_trigger_put.
    apply grants_timed_frame with s; [|apply Qle_refl | exact Hs].
    cbn [trace observe set_machine]. now rewrite grant_log_snoc, app_nil_r.
  - now apply grants_timed_trigger_put.
Qed.

Lemma grants_timed_step s s' :
  env_ok (env s) -> grants_timed s ->
  step s = Next s' \/ step s = Stop s' -> grants_timed s'.
Proof.
  intros [_ Ho] Hs H. destruct (step_fires _ _ H) as (e & rest & Hq & Hf).
  apply grants_timed_fires with (cb := callback e) (s := popped e rest s);
    [|exact Hf].
  apply grants_timed_frame with s; [reflexivity | | exact Hs].
  cbn [popped set_env env now]. rewrite Hq in Ho. now inversion Ho.
Qed.

Lemma grants_timed_after c r n st s :
  after n (initial c r) = Some (st, s) -> grants_timed s.
Proof.
  apply run_induction.
  - split; constructor.
  - intros s1 s2 Hsound _ Hg H.
    apply grants_timed_step with s1; [apply (sound_env _ _ Hsound) | |]; auto.
Qed.

Lemma requested_nodup c r n st s :
  after n (initial c r) = Some (st, s) -> NoDup (requested (trace s)).
Proof.
  intros H. pose proof (sound_after _ _ _ _ _ H) as Hsound.
  destruct (sound_generator _ _ Hsound) as (k & Hk & _).
  pose proof (sound_starts _ _ Hsound) as Hp. unfold starts_accounted in Hp.
  rewrite Hk in Hp. symmetry in Hp.
  pose proof (Permutation_NoDup Hp (seq_NoDup k 1)) as Hnd.
  now apply NoDup_app_remove_r in Hnd.
Qed.

Lemma precedes_prefix {A : Type} (l1 l2 : list A) a b :
  NoDup (l1 ++ l2) -> In b l1 -> precedes (l1 ++ l2) a b -> precedes l1 a b.
Proof.
  intros Hnd Hb (p & m & q & E).
  destruct (in_split _ _ Hb) as (u & v & ->).
  rewrite <- app_assoc in E. cbn [app] in E.
  change (p ++ a :: m ++ b :: q) with (p ++ (a :: m) ++ b :: q) in E.
  rewrite (app_assoc p (a :: m) (b :: q)) in E.
  destruct (app_inj_pivot _ _ _ _ _ E) as [[[H1 H2]|[H1 H2]]|[H1 H2]].
  - exfalso. rewrite <- app_assoc in Hnd. cbn [app] in Hnd.
    apply NoDup_remove_2 in Hnd. apply Hnd, in_or_app. now left.
  - exfalso. rewrite <- app_assoc in Hnd. cbn [app] in Hnd.
    apply NoDup_remove_2 in Hnd. apply Hnd, in_or_app. now right.
  - exists p, m, v. rewrite H1, <- app_assoc. reflexivity.
Qed.

Lemma precedes_map_fst (l : list (nat * Q)) a b :
  precedes (map fst l) a b ->
  exists ta tb, precedes l (a, ta) (b, tb).
Proof.
  intros (p & m & q & E).
  apply map_eq_app in E. destruct E as (p' & r1 & -> & <- & E).
  apply map_eq_cons in E. destruct E as ([a' ta] & r2 & -> & <- & E).
  apply map_eq_app in E. destruct E as (m' & r3 & -> & <- & E).
  apply map_eq_cons in E. destruct E as ([b' tb] & q' & -> & <- & <-).
  exists ta, tb, p', m', q'. reflexivity.
Qed.

Lemma nodup_fst_unique (l : list (nat * Q)) n t t' :
  NoDup (map fst l) -> In (n, t) l -> In (n, t') l -> t = t'.
Proof.
  induction l as [|[m u] l IH]; cbn [map fst In]; [contradiction|].
  intros Hnd [H1|H1] [H2|H2].
  - congruence.
  - injection H1 as -> ->. exfalso. inversion Hnd; subst.
    apply H1. apply (in_map fst) in H2. exact H2.
  - injection H2 as -> ->. exfalso. inversion Hnd; subst.
    apply H2. apply (in_map fst) in H1. exact H1.
  - inversion Hnd; subst. now apply IH.
Qed.

(** C6: if A issued its request before B and B has been granted, then A
    was granted before B in the order of events, at a clock value no
    later than B's. *)
Theorem first_come_first_served c r n st s A B tB :
  after n (initial c r) = Some (st, s) ->
  precedes (requested (trace s)) A B ->
  In (B, tB) (grant_log (trace s)) ->
  exists tA,
    precedes (grant_log (trace s)) (A, tA) (B, tB) /\ (tA <= tB)%Q.
Proof.
  intros H Hreq HB.
  pose proof (requested_nodup _ _ _ _ _ H) as Hnd.
  pose proof (sound_discipline _ _ (sound_after _ _ _ _ _ H)) as Hd.
  unfold queue_discipline in Hd. rewrite Hd in Hnd, Hreq.
  assert (HBg : In B (granted (trace s))).
  { rewrite granted_grant_log. apply (in_map fst) in HB. exact HB. }
  apply precedes_prefix in Hreq; [|exact Hnd | exact HBg].
  apply NoDup_app_remove_r in Hnd.
  rewrite granted_grant_log in Hreq, Hnd.
  destruct (precedes_map_fst _ _ _ Hreq) as (tA & tB' & Hp).
  assert (tB' = tB).
  { apply nodup_fst_unique with (grant_log (trace s)) B; [exact Hnd | | exact HB].
    destruct Hp as (l1 & l2 & l3 & ->).
    apply in_or_app. right. right. apply in_elt. }
  subst tB'. exists tA. split; [exact Hp|].
  destruct (grants_timed_after _ _ _ _ _ H) as [Hs _].
  exact (sorted_precedes earlier _ _ _ Hs Hp).
Qed.

Lemma first_come_first_served_witness :
  exists tA,
    precedes (grant_log (trace (state_after 16 1 three_arrivals)))
             (2, tA) (3, (3780000000 # 180000000)%Q) /\
    (tA <= 3780000000 # 180000000)%Q.
Proof.
  apply (first_come_first_served 1 three_arrivals 16 Running).
  - vm_compute. reflexivity.
  - exists [1], [], []. vm_compute. reflexivity.
  - vm_compute. right. right. left. reflexivity.
Defined.

(** ** Grants, samples and the horizon *)

Ltac count_all :=
  cbn; rewrite ?pending_heappush, ?pending_cons in *; cbn in *;
  rewrite ?requested_snoc, ?granted_snoc, ?spawned_snoc in *; cbn in *;
  rewrite ?length_app in *; cbn in *.

Lemma grants_accounted_step s s' :
  grants_accounted s -> step s = Next s' \/ step s = Stop s' ->
  grants_accounted s'.
Proof.
  unfold grants_accounted. intros [Hc Hu] H.
  destruct (step_fires _ _ H) as (e & rest & Hq & Hf). clear H.
  rewrite Hq in Hc. clear Hq. destruct e as [t p i cb]. cbn [callback] in Hf.
  fire Hf; try open_resource; count_all; try lia.
  pose proof (remove_user_length n (users (machine s))). lia.
Qed.

Lemma grants_accounted_after c r n st s :
  after n (initial c r) = Some (st, s) -> grants_accounted s.
Proof.
  apply after_invariant; [|apply grants_accounted_step].
  unfold grants_accounted, initial. split; [|cbn; lia].
  cbn [sched set_env env schedule env_queue wait_times trace length].
  rewrite !pending_heappush. reflexivity.
Qed.

Lemma grants_due_schedule cb p d e :
  (is_granted cb = true ->
   (now e < SIMULATION_DURATION)%Q /\ (d == 0)%Q) ->
  grants_due e -> grants_due (schedule cb p d e).
Proof.
  unfold grants_due. intros Hcb He. cbn [schedule env_queue].
  apply Forall_heappush; [|exact He].
  cbn [callback]. intros Hg. destruct (Hcb Hg) as [Hn Hd].
  unfold before_horizon. cbn [at_time]. rewrite Hd, Qplus_0_r. exact Hn.
Qed.

Lemma grants_due_trigger_put s :
  (now (env s) < SIMULATION_DURATION)%Q ->
  grants_due (env s) -> grants_due (env (trigger_put s)).
Proof.
  intros Hn H. destruct (env_trigger_put s) as [E|(n & a & E)]; rewrite E.
  - exact H.
  - apply grants_due_schedule; [|exact H]. intros _. split; [exact Hn|].
    reflexivity.
Qed.

Lemma grants_due_fires cb s s' :
  (cb <> StopSimulation -> (now (env s) < SIMULATION_DURATION)%Q) ->
  grants_due (env s) -> fires cb s s' -> grants_due (env s').
Proof.
  intros Hn Hs Hf.
  destruct Hf as [s s' Hc Hl | c s s' Hl | n s | n a s Hd | n s | s | s | s];
    try destruct Hl as [Hlt Hd | Hge]; try exact Hs;
    repeat (apply grants_due_schedule; [discriminate|]); try exact Hs.
  - unfold employee_start, request.
    apply grants_due_trigger_put; [|exact Hs]. apply Hn. discriminate.
  - apply grants_due_trigger_put; [|exact Hs]. apply Hn. discriminate.
Qed.

Lemma grants_due_after c r n st s :
  after n (initial c r) = Some (st, s) -> grants_due (env s).
Proof.
  apply (run_induction c r (fun s => grants_due (env s))).
  - unfold initial. cbn [sched set_env env].
    repeat (apply grants_due_schedule; [discriminate|]). constructor.
  - intros s1 s2 _ Hh Hs H.
    destruct (step_fires _ _ H) as (e & rest & Hq & Hf).
    apply grants_due_fires with (cb := callback e) (s := popped e rest s1);
      [| | exact Hf].
    + intros Hne. cbn [popped set_env env now].
      now apply popped_before_horizon with s1 rest.
    + unfold grants_due in *. cbn [popped set_env env env_queue].
      rewrite Hq in Hs. now inversion Hs.
Qed.

(** When the run has stopped, what is left in the heap is due at the
    horizon or later. *)
Lemma halted_heap_late c r n s :
  after n (initial c r) = Some (Halted, s) ->
  Forall (fun x => (SIMULATION_DURATION <= at_time x)%Q) (env_queue (env s)).
Proof.
  destruct n as [|n]; [discriminate|].
  intros H. apply after_previous in H.
  destruct H as (s1 & H1 & [[E _]|[_ E]]); [discriminate|].
  pose proof (sound_env _ _ (sound_after _ _ _ _ _ H1)) as [Hsorted _].
  destruct (horizon_ahead_running _ _ _ _ H1)
    as (_ & _ & pre & stop & post & Hq & Hpre & Hstop).
  unfold step in E. rewrite Hq in E, Hsorted.
  destruct pre as [|x pre]; cbn [app] in E, Hsorted.
  - destruct Hstop as (Ht & _ & _ & Hc). rewrite Hc in E.
    cbn [dispatch] in E. injection E as <-. cbn [set_env env env_queue].
    inversion Hsorted as [|? ? _ Hf]; subst.
    eapply Forall_impl; [|exact Hf]. intros y Hy.
    unfold no_later in Hy. now rewrite <- Ht.
  - exfalso. inversion Hpre as [|? ? [_ Hx] _]; subst.
    destruct (callback x) eqn:Hcx; cbn [dispatch] in E;
      try discriminate; try congruence;
      match type of E with
      | of_option ?o = _ => destruct o; discriminate
      end.
Qed.

Lemma halted_all_sampled c r n s :
  after n (initial c r) = Some (Halted, s) ->
  length (wait_times s) = length (granted (trace s)).
Proof.
  intros H. destruct (grants_accounted_after _ _ _ _ _ H) as [Hc _].
  pose proof (grants_due_after _ _ _ _ _ H) as Hd.
  pose proof (halted_heap_late _ _ _ _ H) as Hl.
  destruct (Nat.eq_dec (pending is_granted (env_queue (env s))) 0) as [E|E];
    [lia|].
  exfalso.
  destruct (pending_positive is_granted (env_queue (env s)))
    as (e & He & Hg); [lia|].
  unfold grants_due in Hd. rewrite Forall_forall in Hd, Hl.
  specialize (Hd e He Hg). specialize (Hl e He).
  unfold before_horizon in Hd. now apply Qle_not_lt in Hl.
Qed.

(** ** A single entity *)

Lemma requested_grows cb s s' :
  fires cb s s' ->
  length (requested (trace s)) <= length (requested (trace s')).
Proof.
  intros Hf.
  destruct Hf as [s s' Hc Hl | c s s' Hl | n s | n a s Hd | n s | s | s | s];
    try destruct Hl as [Hlt Hd | Hge]; try lia;
    cbn [trace sched set_env set_rnd spawn sample observe record_sample
         employee_served release set_machine incr_served];
    rewrite ?requested_snoc, ?app_nil_r; try lia.
  - unfold employee_start, request. rewrite requested_trigger_put.
    cbn [trace set_machine observe]. rewrite requested_snoc, length_app. lia.
  - rewrite requested_trigger_put. lia.
Qed.

Lemma due_at_arrival_push cb p d s :
  due_at_arrival (mkEntry (now (env s) + d) p (next_eid (env s)) cb) ->
  Forall due_at_arrival (env_queue (env s)) ->
  Forall due_at_arrival (env_queue (env (sched cb p d s))).
Proof.
  intros Hcb H. cbn [sched set_env env schedule env_queue].
  now apply Forall_heappush.
Qed.

Lemma alone_step c s s' :
  0 < c -> sound c s -> grants_accounted s -> alone s ->
  step s = Next s' \/ step s = Stop s' -> alone s'.
Proof.
  intros Hc Hsound [_ Husers] Hs H Hlen'.
  destruct (step_fires _ _ H) as (e & rest & Hq & Hf). clear H.
  pose proof (requested_grows _ _ _ Hf) as Hmono.
  cbn [popped set_env trace] in Hmono.
  destruct Hs as (Hqueue & Hdue & Hw & Hl); [lia|].
  rewrite Hq in Hdue. inversion Hdue as [|? ? Hde Hdr]; subst. clear Hdue.
  pose proof (sound_discipline _ _ Hsound) as Hdisc.
  pose proof (sound_capacity _ _ Hsound) as Hcap.
  unfold queue_discipline in Hdisc. rewrite Hqueue in Hdisc.
  cbn [map] in Hdisc. rewrite app_nil_r in Hdisc.
  destruct e as [t p i cb]. unfold due_at_arrival in Hde.
  cbn [callback at_time] in *.
  inversion Hf; subst; clear Hf;
    repeat match goal with
           | L : loops _ _ _ |- _ => inversion L; subst; clear L
           end;
    try (repeat split; try assumption;
         repeat (apply due_at_arrival_push; [exact I|]); assumption).
  - (* a process starts: it is the first, and is granted at once *)
    assert (Hno : requested (trace s) = []).
    { unfold employee_start, request in Hlen'.
      rewrite requested_trigger_put in Hlen'.
      cbn [trace set_machine observe popped set_env] in Hlen'.
      rewrite requested_snoc, length_app in Hlen'. cbn [length] in Hlen'.
      destruct (requested (trace s)); [reflexivity | cbn in Hlen'; lia]. }
    rewrite Hno in Hdisc. rewrite <- Hdisc in Husers.
    assert (Hu : users (machine s) = []).
    { destruct (users (machine s)); [reflexivity | cbn in Husers; lia]. }
    unfold employee_start, request, trigger_put.
    cbn [machine put_queue users capacity set_machine observe popped set_env
         env now].
    rewrite Hqueue, Hu. cbn [app length].
    apply Nat.ltb_lt in Hc. rewrite Hc.
    cbn [machine put_queue sched set_env env schedule env_queue wait_times
         queue_lengths observe set_machine req_name req_arrival now].
    repeat split; try assumption.
    apply Forall_heappush; [|exact Hdr].
    unfold due_at_arrival. cbn [callback at_time]. apply Qplus_0_r.
  - (* the grant is dispatched: the samples are taken *)
    cbn [machine put_queue sched set_env env schedule env_queue wait_times
         queue_lengths observe set_machine set_rnd sample record_sample
         popped now].
    rewrite Hqueue. repeat split.
    + apply Forall_heappush; [exact I | exact Hdr].
    + apply Forall_app. split; [exact Hw|].
      constructor; [|constructor]. cbn [at_time]. lra.
    + apply Forall_app. split; [exact Hl | now repeat constructor].
  - (* a look at the empty queue *)
    unfold trigger_put. cbn [machine popped set_env]. rewrite Hqueue.
    cbn [machine put_queue env env_queue wait_times queue_lengths set_env].
    repeat split; assumption.
Qed.

Lemma alone_after c r n st s :
  0 < c -> after n (initial c r) = Some (st, s) -> alone s.
Proof.
  intros Hc. revert n st s.
  apply (run_induction c r (fun s => alone s /\ grants_accounted s)).
  - split.
    + intros _. unfold initial.
      cbn [sched set_env machine put_queue wait_times queue_lengths env
           schedule env_queue].
      split; [reflexivity|]. split; [|split; constructor].
      apply Forall_heappush; [exact I|].
      apply Forall_heappush; [exact I | constructor].
    + unfold grants_accounted, initial. split; [|cbn; lia].
      cbn [sched set_env env schedule env_queue wait_times trace length].
      rewrite !pending_heappush. reflexivity.
  - intros s1 s2 Hsound _ [Ha Hg] H. split.
    + now apply alone_step with c s1.
    + now apply grants_accounted_step with s1.
Qed.

(** C7: in a completed run with capacity 1 in which exactly one entity
    arrived, exactly one sample was recorded: a wait time equal to 0 and a
    queue length of 0. *)
Theorem single_entity_no_wait r s :
  simulate 1 r = Some s ->
  length (requested (trace s)) = 1 ->
  (exists w, wait_times s = [w] /\ (w == 0)%Q) /\ queue_lengths s = [0].
Proof.
  intros Hs Hone. destruct (simulate_after _ _ _ Hs) as [n Hn].
  pose proof (alone_after 1 r n Halted s Nat.lt_0_1 Hn) as Ha.
  destruct Ha as (Hq & _ & Hw & Hl); [lia|].
  pose proof (sound_discipline _ _ (sound_after _ _ _ _ _ Hn)) as Hd.
  unfold queue_discipline in Hd. rewrite Hq in Hd. cbn [map] in Hd.
  rewrite app_nil_r in Hd.
  pose proof (halted_all_sampled _ _ _ _ Hn) as Hall.
  rewrite <- Hd, Hone in Hall.
  destruct (sound_samples _ _ (sound_after _ _ _ _ _ Hn)) as [Hlen _].
  rewrite Hall in Hlen.
  destruct (wait_times s) as [|w [|w' ws]]; try discriminate.
  destruct (queue_lengths s) as [|q [|q' qs]]; try discriminate.
  inversion Hw; subst. inversion Hl; subst. split; [|reflexivity].
  now exists w.
Qed.

Lemma single_entity_no_wait_witness :
  (exists w, wait_times (final_state 1 one_arrival) = [w] /\ (w == 0)%Q) /\
  queue_lengths (final_state 1 one_arrival) = [0].
Proof.
  apply (single_entity_no_wait one_arrival (final_state 1 one_arrival)).
  - vm_compute. reflexivity.
  - vm_compute. reflexivity.
Defined.

(** ** What the samples measure *)

Lemma known_extend tr ext name a : known tr name a -> known (tr ++ ext) name a.
Proof.
  intros [ahead H]. exists ahead. apply in_or_app. now left.
Qed.

Lemma granted_extend tr ext n : In n (granted tr) -> In n (granted (tr ++ ext)).
Proof.
  unfold granted. rewrite flat_map_app. intros H. apply in_or_app. now left.
Qed.

Lemma grant_known_extend tr ext e :
  grant_known tr e -> grant_known (tr ++ ext) e.
Proof.
  unfold grant_known. destruct (callback e); try exact (fun H => H).
  intros [H1 H2]. split; [now apply known_extend | now apply granted_extend].
Qed.

Lemma requests_known_extend s s' ext :
  trace s' = trace s ++ ext ->
  put_queue (machine s') = put_queue (machine s) ->
  env_queue (env s') = env_queue (env s) ->
  requests_known s -> requests_known s'.
Proof.
  unfold requests_known. intros -> -> -> [Hq Hh]. split.
  - eapply Forall_impl; [|exact Hq]. intros q. apply known_extend.
  - eapply Forall_impl; [|exact Hh]. intros e. apply grant_known_extend.
Qed.

Lemma requests_known_sched cb p d s :
  is_granted cb = false ->
  requests_known s -> requests_known (sched cb p d s).
Proof.
  unfold requests_known. intros Hcb [Hq Hh]. split; [exact Hq|].
  cbn [sched set_env env schedule env_queue trace].
  apply Forall_heappush; [|exact Hh].
  unfold grant_known. cbn [callback]. now destruct cb.
Qed.

Lemma requests_known_trigger_put s :
  requests_known s -> requests_known (trigger_put s).
Proof.
  unfold requests_known, trigger_put. intros [Hq Hh].
  destruct (put_queue (machine s)) as [|req rest] eqn:E; [now rewrite E|].
  destruct (length (users (machine s)) <? capacity (machine s));
    [|now rewrite E].
  cbn [sched set_env env schedule env_queue trace machine put_queue observe
       set_machine].
  inversion Hq as [|? ? Hreq Hrest]; subst. split.
  - eapply Forall_impl; [|exact Hrest]. intros q. apply known_extend.
  - apply Forall_heappush.
    + unfold grant_known. cbn [callback]. split; [now apply known_extend|].
      rewrite granted_snoc. apply in_or_app. right. now left.
    + eapply Forall_impl; [|exact Hh]. intros e. apply grant_known_extend.
Qed.

Lemma requests_known_fires cb s s' :
  requests_known s -> fires cb s s' -> requests_known s'.
Proof.
  intros Hs Hf.
  destruct Hf as [s s' Hc Hl | c s s' Hl | n s | n a s Hd | n s | s | s | s];
    try destruct Hl as [Hlt Hd | Hge]; try exact Hs;
    repeat (apply requests_known_sched; [reflexivity|]); try exact Hs.
  - now apply requests_known_extend with s [Spawned (S c) (now (env s))].
  - now apply requests_known_extend with s [Spawned (S c) (now (env s))].
  - unfold employee_start, request. apply requests_known_trigger_put.
    destruct Hs as [Hq Hh]. split.
    + cbn [trace machine put_queue set_machine observe].
      apply Forall_app. split.
      * eapply Forall_impl; [|exact Hq]. intros q. apply known_extend.
      * constructor; [|constructor]. cbn [req_name req_arrival].
        exists (length (put_queue (machine s))).
        apply in_or_app. right. now left.
    + cbn [trace env set_machine observe].
      eapply Forall_impl; [|exact Hh]. intros e. apply grant_known_extend.
  - unfold sample.
    now apply requests_known_extend
      with s [Sampled n (now (env s) - a) (length (put_queue (machine s)))].
  - unfold employee_served, release.
    repeat (apply requests_known_sched; [reflexivity|]).
    now apply requests_known_extend with s [Departed n (now (env s))].
  - now apply requests_known_trigger_put.
Qed.

Lemma requests_known_step s s' :
  requests_known s -> step s = Next s' \/ step s = Stop s' ->
  requests_known s'.
Proof.
  intros [Hq Hh] H. destruct (step_fires _ _ H) as (e & rest & E & Hf).
  apply requests_known_fires with (cb := callback e) (s := popped e rest s);
    [|exact Hf].
  split; [exact Hq|]. cbn [popped set_env env env_queue trace].
  rewrite E in Hh. now inversion Hh.
Qed.

Lemma requests_known_after c r n st s :
  after n (initial c r) = Some (st, s) -> requests_known s.
Proof.
  apply after_invariant; [|apply requests_known_step].
  unfold initial.
  repeat (apply requests_known_sched; [reflexivity|]).
  split; constructor.
Qed.

Lemma nodup_app_disjoint {A : Type} (l1 l2 : list A) x :
  NoDup (l1 ++ l2) -> In x l1 -> ~ In x l2.
Proof.
  intros Hnd H1 H2. destruct (in_split _ _ H1) as (u & v & ->).
  rewrite <- app_assoc in Hnd. cbn [app] in Hnd.
  apply NoDup_remove_2 in Hnd. apply Hnd.
  apply in_or_app. right. apply in_or_app. now right.
Qed.

Lemma stream_after c r n st s :
  after n (initial c r) = Some (st, s) -> stream (rnd s) = stream r.
Proof.
  apply (after_invariant (fun s => stream (rnd s) = stream r));
    [reflexivity|].
  intros s1 s2 H1 H2. now rewrite (rnd_step _ _ H2).
Qed.

Lemma samples_trigger_put s :
  wait_times (trigger_put s) = wait_times s /\
  queue_lengths (trigger_put s) = queue_lengths s.
Proof.
  unfold trigger_put. destruct (put_queue (machine s)); [now split|].
  now destruct (length (users (machine s)) <? capacity (machine s)).
Qed.

Lemma samples_untouched cb s s' :
  is_granted cb = false -> fires cb s s' ->
  wait_times s' = wait_times s /\ queue_lengths s' = queue_lengths s.
Proof.
  intros Hcb Hf.
  destruct Hf as [s s' Hc Hl | c s s' Hl | n s | n a s Hd | n s | s | s | s];
    try destruct Hl as [Hlt Hd | Hge]; try discriminate; try (now split).
  - unfold employee_start, request.
    match goal with
    | |- context [trigger_put ?x] =>
        destruct (samples_trigger_put x) as [-> ->]
    end.
    now split.
  - apply samples_trigger_put.
Qed.

(** C2, as stated, fails: the third entity arrives behind one waiting
    request and is sampled with an empty queue, when its own service
    starts. *)
Lemma sample_not_at_arrival : ~ samples_at_arrival 1 three_arrivals.
Proof.
  intros H. unfold samples_at_arrival in H.
  destruct (H 16 Running (state_after 16 1 three_arrivals) 3
              (25920000000000 # 1440000000000)%Q 0)
    as (t & ahead & Hin & Hq).
  - vm_compute. reflexivity.
  - vm_compute. do 13 right. left. reflexivity.
  - revert Hin Hq. vm_compute. intros Hin Hq.
    repeat (destruct Hin as [Hin|Hin];
            [try discriminate Hin;
             injection Hin as _ <-; destruct Hq; discriminate|]).
    contradiction.
Qed.

(** C2, amended: the two samples of an entity are taken when the
    dispatch of its grant resumes it, that is, when its service starts.
    The wait time is the clock value at that moment minus the clock value
    at which it arrived and issued its request; the queue length is the
    number of requests waiting at that moment, which does not include the
    entity itself.  No other dispatch records a sample. *)
Theorem sample_taken_at_service_start :
  (forall c r n s e rest name a,
      stream_ok r ->
      after n (initial c r) = Some (Running, s) ->
      env_queue (env s) = e :: rest ->
      callback e = EmployeeGranted name a ->
      known (trace s) name a /\
      In name (granted (trace s)) /\
      ~ In name (map req_name (put_queue (machine s))) /\
      exists s',
        step s = Next s' /\
        now (env s') = at_time e /\
        wait_times s' = wait_times s ++ [(at_time e - a)%Q] /\
        queue_lengths s'
        = queue_lengths s ++ [length (put_queue (machine s))] /\
        put_queue (machine s') = put_queue (machine s)) /\
  (forall s s' e rest,
      env_queue (env s) = e :: rest ->
      is_granted (callback e) = false ->
      step s = Next s' \/ step s = Stop s' ->
      wait_times s' = wait_times s /\ queue_lengths s' = queue_lengths s).
Proof.
  split.
  - intros c r n s e rest name a Hr Hn Hq Hcb.
    destruct (requests_known_after _ _ _ _ _ Hn) as [_ Hh].
    rewrite Hq in Hh. inversion Hh as [|? ? He _]; subst.
    unfold grant_known in He. rewrite Hcb in He. destruct He as [Hk Hg].
    split; [exact Hk|]. split; [exact Hg|]. split.
    + pose proof (requested_nodup _ _ _ _ _ Hn) as Hnd.
      pose proof (sound_discipline _ _ (sound_after _ _ _ _ _ Hn)) as Hd.
      unfold queue_discipline in Hd. rewrite Hd in Hnd.
      now apply nodup_app_disjoint with (granted (trace s)).
    + unfold step. rewrite Hq, Hcb. cbn [dispatch].
      unfold employee_granted, timeout. cbn [expovariate uniform].
      assert (Hok : stream_ok (rnd s)).
      { unfold stream_ok. now rewrite (stream_after _ _ _ _ _ Hn). }
      pose proof (service_time_nonneg (rnd s) Hok) as Hs.
      apply Qle_bool_iff in Hs. unfold service_time in Hs.
      cbn [expovariate uniform fst] in Hs.
      cbn [rnd observe record_sample set_env] in *. rewrite Hs.
      cbn [of_option]. eexists. split; [reflexivity|].
      repeat split.
  - intros s s' e rest Hq Hcb H.
    destruct (step_fires _ _ H) as (e' & rest' & Hq' & Hf).
    rewrite Hq in Hq'. injection Hq' as <- <-.
    exact (samples_untouched _ _ _ Hcb Hf).
Qed.

Lemma sample_taken_at_service_start_witness :
  known (trace (state_after 15 1 three_arrivals)) 3 (24000 # 8000)%Q /\
  In 3 (granted (trace (state_after 15 1 three_arrivals))) /\
  ~ In 3 (map req_name
              (put_queue (machine (state_after 15 1 three_arrivals)))) /\
  exists s',
    step (state_after 15 1 three_arrivals) = Next s' /\
    now (env s') = (3780000000 # 180000000)%Q /\
    wait_times s'
    = wait_times (state_after 15 1 three_arrivals)
      ++ [((3780000000 # 180000000) - (24000 # 8000))%Q] /\
    queue_lengths s'
    = queue_lengths (state_after 15 1 three_arrivals)
      ++ [length (put_queue (machine (state_after 15 1 three_arrivals)))] /\
    put_queue (machine s')
    = put_queue (machine (state_after 15 1 three_arrivals)).
Proof.
  apply (proj1 sample_taken_at_service_start 1 three_arrivals 15
               (state_after 15 1 three_arrivals)
               (mkEntry (3780000000 # 180000000) NORMAL 17
                        (EmployeeGranted 3 (24000 # 8000)))
               [mkEntry 3600 URGENT 1 StopSimulation;
                mkEntry (32024000 # 8000) NORMAL 10 (SetupResume 3)]).
  - exact three_arrivals_ok.
  - vm_compute. reflexivity.
  - vm_compute. reflexivity.
  - reflexivity.
Defined.

(** ** The clock of a run *)

Lemma halted_at_horizon c r n s :
  after n (initial c r) = Some (Halted, s) ->
  (now (env s) == SIMULATION_DURATION)%Q.
Proof.
  destruct n as [|n]; [discriminate|].
  intros H. apply after_previous in H.
  destruct H as (s1 & H1 & [[E _]|[_ E]]); [discriminate|].
  destruct (horizon_ahead_running _ _ _ _ H1)
    as (_ & _ & pre & stop & post & Hq & Hpre & Hstop).
  unfold step in E. rewrite Hq in E.
  destruct pre as [|x pre]; cbn [app] in E.
  - destruct Hstop as (Ht & _ & _ & Hc). rewrite Hc in E.
    cbn [dispatch] in E. injection E as <-. exact Ht.
  - exfalso. inversion Hpre as [|? ? [_ Hx] _]; subst.
    destruct (callback x) eqn:Hcx; cbn [dispatch] in E;
      try discriminate; try congruence;
      match type of E with
      | of_option ?o = _ => destruct o; discriminate
      end.
Qed.





(** ** Reaching the horizon *)

Lemma run_after_bounded fuel s0 s :
  run fuel s0 = Finished s ->
  exists n, n <= fuel /\ after n s0 = Some (Halted, s).
Proof.
  revert s0. induction fuel as [|fuel IH]; intros s0; [discriminate|].
  cbn [run]. destruct (step s0) as [s1|s1| |] eqn:E; try discriminate.
  - intros H. destruct (IH _ H) as (n & Hle & Hn).
    exists (S n). split; [lia|]. now rewrite (after_shift n s0 s1 E).
  - intros H. injection H as <-. exists 1. split; [lia|].
    cbn [after advance_run]. now rewrite E.
Qed.

(** X2: with a positive machine count and a well-formed random stream a
    run ends by reaching the horizon, after at most [RUN_BUDGET]
    dispatches: the clock then reads the horizon and every event left in
    the heap was due at the horizon or later (it is never dispatched). *)
Theorem run_ends_at_horizon c r :
  0 < c -> stream_ok r ->
  exists n s,
    n <= RUN_BUDGET /\
    after n (initial c r) = Some (Halted, s) /\
    simulate c r = Some s /\
    (now (env s) == SIMULATION_DURATION)%Q /\
    Forall (fun x => (SIMULATION_DURATION <= at_time x)%Q)
           (env_queue (env s)).
Proof.
  intros Hc Hr. destruct (env_run_finishes c r Hc Hr) as [s Hs].
  destruct (run_after_bounded _ _ _ Hs) as (n & Hle & Hn).
  exists n, s. split; [exact Hle|]. split; [exact Hn|]. split.
  - unfold simulate. now rewrite Hs.
  - split; [now apply halted_at_horizon with c r n|].
    now apply halted_heap_late with c r n.
Qed.

Lemma run_ends_at_horizon_witness :
  exists n s,
    n <= RUN_BUDGET /\
    after n (initial 1 three_arrivals) = Some (Halted, s) /\
    simulate 1 three_arrivals = Some s /\
    (now (env s) == SIMULATION_DURATION)%Q /\
    Forall (fun x => (SIMULATION_DURATION <= at_time x)%Q)
           (env_queue (env s)).
Proof.
  apply (run_ends_at_horizon 1 three_arrivals); [lia|].
  exact three_arrivals_ok.
Defined.

(** ** A machine count of zero *)





(** ** The life of an entity *)

Arguments sampled : simpl never.
Arguments departed : simpl never.

Arguments being_granted : simpl never.
Arguments in_service : simpl never.

Lemma sampled_snoc tr o :
  sampled (tr ++ [o])
  = sampled tr ++ match o with Sampled n _ _ => [n] | _ => [] end.
Proof. unfold sampled. rewrite flat_map_app. cbn. now rewrite app_nil_r. Qed.

Lemma departed_snoc tr o :
  departed (tr ++ [o])
  = departed tr ++ match o with Departed n _ => [n] | _ => [] end.
Proof. unfold departed. rewrite flat_map_app. cbn. now rewrite app_nil_r. Qed.

Lemma being_granted_heappush e h :
  Permutation (being_granted (heappush e h)) (grant_of e ++ being_granted h).
Proof. unfold being_granted. now rewrite (heappush_perm e h). Qed.

Lemma in_service_heappush e h :
  Permutation (in_service (heappush e h)) (service_of e ++ in_service h).
Proof. unfold in_service. now rewrite (heappush_perm e h). Qed.

Lemma trigger_put_cases s :
  trigger_put s = s \/
  exists req rest,
    put_queue (machine s) = req :: rest /\
    length (users (machine s)) < capacity (machine s) /\
    trigger_put s
    = sched (EmployeeGranted (req_name req) (req_arrival req)) NORMAL 0
        (observe (Granted (req_name req) (now (env s)))
           (set_machine
              (mkResource (capacity (machine s))
                          (users (machine s) ++ [req]) rest) s)).
Proof.
  unfold trigger_put. destruct (put_queue (machine s)) as [|req rest];
    [now left|].
  destruct (length (users (machine s)) <? capacity (machine s)) eqn:E;
    [|now left].
  right. exists req, rest. apply Nat.ltb_lt in E. auto.
Qed.

Lemma remove_user_perm n l :
  In n (map req_name l) ->
  Permutation (map req_name l) (n :: map req_name (remove_user n l)).
Proof.
  induction l as [|r l IH]; cbn [map remove_user In]; [contradiction|].
  destruct (req_name r =? n) eqn:E.
  - apply Nat.eqb_eq in E. intros _. now rewrite E.
  - apply Nat.eqb_neq in E. intros [H|H]; [contradiction|].
    cbn [map]. rewrite (IH H) at 1. apply perm_swap.
Qed.

Ltac read_life :=
  cbn [trace sched set_env set_rnd spawn sample observe record_sample
       set_machine incr_served env schedule env_queue machine users
       served_count popped];
  rewrite ?granted_snoc, ?sampled_snoc, ?departed_snoc, ?app_nil_r.

Lemma lifecycle_frame s s' :
  served_count s' = served_count s ->
  granted (trace s') = granted (trace s) ->
  sampled (trace s') = sampled (trace s) ->
  departed (trace s') = departed (trace s) ->
  users (machine s') = users (machine s) ->
  Permutation (being_granted (env_queue (env s')))
              (being_granted (env_queue (env s))) ->
  Permutation (in_service (env_queue (env s')))
              (in_service (env_queue (env s))) ->
  lifecycle s -> lifecycle s'.
Proof.
  unfold lifecycle. intros -> -> -> -> -> Hg Hs (H0 & H1 & H2 & H3).
  rewrite Hg, Hs. auto.
Qed.

Lemma lifecycle_trigger_put s : lifecycle s -> lifecycle (trigger_put s).
Proof.
  intros Hs.
  destruct (trigger_put_cases s) as [E|(req & rest & Hq & Hlt & E)];
    rewrite E; [exact Hs|].
  destruct Hs as (H0 & H1 & H2 & H3). unfold lifecycle. read_life.
  rewrite being_granted_heappush, in_service_heappush.
  unfold grant_of, service_of. cbn [callback app].
  split; [exact H0|]. split; [|split].
  - rewrite H1. rewrite <- app_assoc. apply Permutation_app_head.
    symmetry. apply Permutation_cons_append.
  - exact H2.
  - rewrite map_app, H3. cbn [map]. symmetry. apply Permutation_cons_append.
Qed.

Lemma lifecycle_step s s' :
  lifecycle s -> step s = Next s' \/ step s = Stop s' -> lifecycle s'.
Proof.
  intros (H0 & H1 & H2 & H3) H.
  destruct (step_fires _ _ H) as (e & rest & Hq & Hf). clear H.
  rewrite Hq in H1, H2, H3. clear Hq.
  unfold being_granted, in_service in H1, H2, H3.
  cbn [flat_map] in H1, H2, H3.
  fold (being_granted rest) in H1, H3. fold (in_service rest) in H2, H3.
  destruct e as [t p i cb]. unfold grant_of, service_of in H1, H2, H3.
  cbn [callback] in *.
  assert (Hframe : forall s1,
             served_count s1 = served_count s ->
             granted (trace s1) = granted (trace s) ->
             sampled (trace s1) = sampled (trace s) ->
             departed (trace s1) = departed (trace s) ->
             users (machine s1) = users (machine s) ->
             Permutation (being_granted (env_queue (env s1)))
                         (being_granted rest) ->
             Permutation (in_service (env_queue (env s1)))
                         (in_service rest) ->
             is_granted cb = false -> is_served cb = false ->
             lifecycle s1).
  { intros s1 E0 E1 E2 E3 E4 Pg Ps Hg Hsv. unfold lifecycle.
    rewrite E0, E1, E2, E3, E4, Pg, Ps.
    destruct cb; try discriminate; cbn [app] in *; auto. }
  inversion Hf; subst; clear Hf;
    repeat match goal with
           | L : loops _ _ _ |- _ => inversion L; subst; clear L
           end.
  - apply Hframe; read_life; try reflexivity;
      rewrite ?being_granted_heappush, ?in_service_heappush; reflexivity.
  - apply Hframe; read_life; try reflexivity;
      rewrite ?being_granted_heappush, ?in_service_heappush; reflexivity.
  - apply Hframe; read_life; try reflexivity;
      rewrite ?being_granted_heappush, ?in_service_heappush; reflexivity.
  - apply Hframe; read_life; try reflexivity;
      rewrite ?being_granted_heappush, ?in_service_heappush; reflexivity.
  - unfold employee_start, request. apply lifecycle_trigger_put.
    unfold lifecycle. read_life. cbn [app] in *. auto.
  - unfold lifecycle. read_life.
    rewrite being_granted_heappush, in_service_heappush.
    unfold grant_of, service_of. cbn [callback app] in *.
    split; [exact H0|]. split; [|split].
    + rewrite H1, <- app_assoc. reflexivity.
    + rewrite H2, <- app_assoc. apply Permutation_app_head.
      symmetry. apply Permutation_cons_append.
    + rewrite H3. cbn [app]. apply Permutation_middle.
  - unfold employee_served, release. unfold lifecycle. read_life.
    rewrite !being_granted_heappush, !in_service_heappush.
    unfold grant_of, service_of. cbn [callback app] in *.
    split; [rewrite length_app, H0; cbn; lia|]. split; [exact H1|]. split.
    + rewrite H2, <- app_assoc. reflexivity.
    + assert (Hin : In n (map req_name (users (machine s)))).
      { apply (Permutation_in n (Permutation_sym H3)), in_or_app.
        right. now left. }
      pose proof (remove_user_perm n _ Hin) as Hp.
      rewrite Hp in H3.
      apply Permutation_cons_app_inv with (a := n).
      rewrite H3. reflexivity.
  - apply lifecycle_trigger_put. unfold lifecycle. read_life.
    cbn [app] in *. auto.
  - apply Hframe; read_life; reflexivity.
  - apply Hframe; read_life; reflexivity.
Qed.

Lemma lifecycle_after c r n st s :
  after n (initial c r) = Some (st, s) -> lifecycle s.
Proof.
  apply after_invariant; [|apply lifecycle_step].
  unfold lifecycle. vm_compute. repeat split; constructor.
Qed.

Lemma granted_split c r n st s :
  after n (initial c r) = Some (st, s) ->
  Permutation (granted (trace s))
              (departed (trace s) ++ map req_name (users (machine s))).
Proof.
  intros H. destruct (lifecycle_after _ _ _ _ _ H) as (_ & H1 & H2 & H3).
  rewrite H1, H2, H3, <- app_assoc. apply Permutation_app_head.
  apply Permutation_app_comm.
Qed.

Lemma granted_nodup c r n st s :
  after n (initial c r) = Some (st, s) -> NoDup (granted (trace s)).
Proof.
  intros H. pose proof (requested_nodup _ _ _ _ _ H) as Hnd.
  rewrite (sound_discipline _ _ (sound_after _ _ _ _ _ H)) in Hnd.
  now apply NoDup_app_remove_r in Hnd.
Qed.



(** X5: the entities are named 1, 2, ..., in the order in which they are
    spawned.  Each of them requests, is granted, is sampled and departs at
    most once, and only after the stage before: whoever departed was
    sampled, whoever was sampled was granted, whoever was granted had
    requested, whoever requested had been spawned. *)
Theorem stages_in_order c r n st s :
  after n (initial c r) = Some (st, s) ->
  (exists k, spawned (trace s) = seq 1 k) /\
  (NoDup (requested (trace s)) /\ incl (requested (trace s)) (spawned (trace s))) /\
  (NoDup (granted (trace s)) /\ incl (granted (trace s)) (requested (trace s))) /\
  (NoDup (sampled (trace s)) /\ incl (sampled (trace s)) (granted (trace s))) /\
  (NoDup (departed (trace s)) /\ incl (departed (trace s)) (sampled (trace s))).
Proof.
  intros H. pose proof (sound_after _ _ _ _ _ H) as Hsound.
  destruct (sound_generator _ _ Hsound) as (k & Hk & _).
  pose proof (sound_starts _ _ Hsound) as Hst. unfold starts_accounted in Hst.
  pose proof (sound_discipline _ _ Hsound) as Hd.
  unfold queue_discipline in Hd.
  destruct (lifecycle_after _ _ _ _ _ H) as (_ & H1 & H2 & _).
  pose proof (granted_nodup _ _ _ _ _ H) as Hg.
  assert (Hs : NoDup (sampled (trace s))).
  { pose proof (Permutation_NoDup H1 Hg) as Hn.
    now apply NoDup_app_remove_r in Hn. }
  split; [now exists k|]. split; [|split; [|split]]; split.
  - now apply requested_nodup with c r n st.
  - intros x Hx. apply (Permutation_in x Hst), in_or_app. now left.
  - exact Hg.
  - intros x Hx. rewrite Hd. apply in_or_app. now left.
  - exact Hs.
  - intros x Hx. apply (Permutation_in x (Permutation_sym H1)), in_or_app.
    now left.
  - pose proof (Permutation_NoDup H2 Hs) as Hn.
    now apply NoDup_app_remove_r in Hn.
  - intros x Hx. apply (Permutation_in x (Permutation_sym H2)), in_or_app.
    now left.
Qed.

Lemma stages_in_order_witness :
  (exists k, spawned (trace (state_after 16 1 three_arrivals)) = seq 1 k) /\
  (NoDup (requested (trace (state_after 16 1 three_arrivals))) /\
   incl (requested (trace (state_after 16 1 three_arrivals)))
        (spawned (trace (state_after 16 1 three_arrivals)))) /\
  (NoDup (granted (trace (state_after 16 1 three_arrivals))) /\
   incl (granted (trace (state_after 16 1 three_arrivals)))
        (requested (trace (state_after 16 1 three_arrivals)))) /\
  (NoDup (sampled (trace (state_after 16 1 three_arrivals))) /\
   incl (sampled (trace (state_after 16 1 three_arrivals)))
        (granted (trace (state_after 16 1 three_arrivals)))) /\
  (NoDup (departed (trace (state_after 16 1 three_arrivals))) /\
   incl (departed (trace (state_after 16 1 three_arrivals)))
        (sampled (trace (state_after 16 1 three_arrivals)))).
Proof.
  apply (stages_in_order 1 three_arrivals 16 Running).
  vm_compute. reflexivity.
Defined.

(** X6: a slot is held only by an entity that has been granted and has not
    departed.  No entity holds two slots, none holds a slot while it waits
    in the queue, and the slots held plus the departures make up the
    grants: a release always frees the slot of the entity that leaves. *)
Theorem slots_held_by_granted c r n st s :
  after n (initial c r) = Some (st, s) ->
  NoDup (map req_name (users (machine s))) /\
  (forall x, In x (map req_name (users (machine s))) ->
             In x (granted (trace s)) /\
             ~ In x (departed (trace s)) /\
             ~ In x (map req_name (put_queue (machine s)))) /\
  length (users (machine s)) + served_count s = length (granted (trace s)).
Proof.
  intros H. pose proof (granted_split _ _ _ _ _ H) as Hp.
  pose proof (granted_nodup _ _ _ _ _ H) as Hg.
  pose proof (Permutation_NoDup Hp Hg) as Hn.
  destruct (lifecycle_after _ _ _ _ _ H) as (H0 & _).
  split; [now apply NoDup_app_remove_l in Hn|]. split.
  - intros x Hx.
    assert (Hxg : In x (granted (trace s))).
    { apply (Permutation_in x (Permutation_sym Hp)), in_or_app. now right. }
    split; [exact Hxg|]. split.
    + intros Hd. revert Hx. now apply nodup_app_disjoint with (departed (trace s)).
    + pose proof (requested_nodup _ _ _ _ _ H) as Hr.
      rewrite (sound_discipline _ _ (sound_after _ _ _ _ _ H)) in Hr.
      now apply nodup_app_disjoint with (granted (trace s)).
  - apply Permutation_length in Hp. rewrite length_app, length_map in Hp. lia.
Qed.

Lemma slots_held_by_granted_witness :
  NoDup (map req_name (users (machine (state_after 12 1 three_arrivals)))) /\
  (forall x,
      In x (map req_name (users (machine (state_after 12 1 three_arrivals)))) ->
      In x (granted (trace (state_after 12 1 three_arrivals))) /\
      ~ In x (departed (trace (state_after 12 1 three_arrivals))) /\
      ~ In x (map req_name
                  (put_queue (machine (state_after 12 1 three_arrivals))))) /\
  length (users (machine (state_after 12 1 three_arrivals)))
  + served_count (state_after 12 1 three_arrivals)
  = length (granted (trace (state_after 12 1 three_arrivals))).
Proof.
  apply (slots_held_by_granted 1 three_arrivals 12 Running).
  vm_compute. reflexivity.
Defined.

(** ** What a wait time is *)

Arguments sample_waits : simpl never.
Arguments sample_queues : simpl never.

Lemma sample_waits_snoc tr o :
  sample_waits (tr ++ [o])
  = sample_waits tr ++ match o with Sampled _ w _ => [w] | _ => [] end.
Proof.
  unfold sample_waits. rewrite flat_map_app. cbn. now rewrite app_nil_r.
Qed.

Lemma sample_queues_snoc tr o :
  sample_queues (tr ++ [o])
  = sample_queues tr ++ match o with Sampled _ _ q => [q] | _ => [] end.
Proof.
  unfold sample_queues. rewrite flat_map_app. cbn. now rewrite app_nil_r.
Qed.

Lemma waited_extend tr ext n w : waited tr n w -> waited (tr ++ ext) n w.
Proof.
  intros (a & ahead & t & H1 & H2 & H3 & H4).
  exists a, ahead, t. repeat split; try assumption; apply in_or_app; now left.
Qed.

Lemma request_logged_extend tr ext clock clock' q :
  (clock <= clock')%Q ->
  request_logged tr clock q -> request_logged (tr ++ ext) clock' q.
Proof.
  intros Hc [[ahead H1] H2]. split.
  - exists ahead. apply in_or_app. now left.
  - eapply Qle_trans; eauto.
Qed.

Lemma grant_logged_extend tr ext e :
  grant_logged tr e -> grant_logged (tr ++ ext) e.
Proof.
  unfold grant_logged. destruct (callback e); try exact (fun H => H).
  intros (ahead & t & H1 & H2 & H3 & H4).
  exists ahead, t. repeat split; try assumption; apply in_or_app; now left.
Qed.

Lemma sample_logged_extend tr ext o :
  sample_logged tr o -> sample_logged (tr ++ ext) o.
Proof.
  unfold sample_logged. destruct o; try exact (fun H => H).
  apply waited_extend.
Qed.

(** The state moves on: the log grows by [ext], the clock does not go
    back, queue and heap are as before. *)
Lemma waits_explained_extend s s' ext :
  trace s' = trace s ++ ext ->
  Forall (sample_logged (trace s ++ ext)) ext ->
  wait_times s' = wait_times s ++ sample_waits ext ->
  queue_lengths s' = queue_lengths s ++ sample_queues ext ->
  put_queue (machine s') = put_queue (machine s) ->
  env_queue (env s') = env_queue (env s) ->
  (now (env s) <= now (env s'))%Q ->
  waits_explained s -> waits_explained s'.
Proof.
  unfold waits_explained.
  intros -> Hext -> -> -> -> Hn (Hw & Hq & Hr & Hg & Hs).
  split; [|split; [|split; [|split]]].
  - unfold sample_waits in *. now rewrite flat_map_app, Hw.
  - unfold sample_queues in *. now rewrite flat_map_app, Hq.
  - eapply Forall_impl; [|exact Hr]. intros q.
    now apply request_logged_extend.
  - eapply Forall_impl; [|exact Hg]. intros e. apply grant_logged_extend.
  - apply Forall_app. split; [|exact Hext].
    eapply Forall_impl; [|exact Hs]. intros o. apply sample_logged_extend.
Qed.

Lemma waits_explained_sched cb p d s :
  is_granted cb = false ->
  waits_explained s -> waits_explained (sched cb p d s).
Proof.
  unfold waits_explained. intros Hcb (Hw & Hq & Hr & Hg & Hs).
  cbn [sched set_env env schedule env_queue trace wait_times queue_lengths
       machine now].
  repeat split; try assumption.
  apply Forall_heappush; [|exact Hg].
  unfold grant_logged. cbn [callback]. now destruct cb.
Qed.

Lemma waits_explained_trigger_put s :
  waits_explained s -> waits_explained (trigger_put s).
Proof.
  intros Hs.
  destruct (trigger_put_cases s) as [E|(req & rest & Hq & Hlt & E)];
    rewrite E; [exact Hs|].
  destruct Hs as (Hw & Hl & Hr & Hg & Hsm). unfold waits_explained.
  cbn [sched set_env env schedule env_queue trace wait_times queue_lengths
       machine put_queue observe set_machine now].
  rewrite Hq in Hr. inversion Hr as [|? ? [[ahead Hreq] Hle] Hrest]; subst.
  split; [now rewrite sample_waits_snoc, app_nil_r|].
  split; [now rewrite sample_queues_snoc, app_nil_r|].
  split; [|split].
  - eapply Forall_impl; [|exact Hrest]. intros q.
    apply request_logged_extend. apply Qle_refl.
  - apply Forall_heappush.
    + unfold grant_logged. cbn [callback at_time].
      exists ahead, (now (env s)). repeat split.
      * apply in_or_app. now left.
      * apply in_or_app. right. now left.
      * exact Hle.
      * apply Qplus_0_r.
    + eapply Forall_impl; [|exact Hg]. intros e. apply grant_logged_extend.
  - apply Forall_app. split; [|now repeat constructor].
    eapply Forall_impl; [|exact Hsm]. intros o. apply sample_logged_extend.
Qed.

Lemma waits_explained_fires cb e rest s s' :
  callback e = cb ->
  grant_logged (trace s) e ->
  waits_explained (popped e rest s) -> fires cb (popped e rest s) s' ->
  waits_explained s'.
Proof.
  intros Hcb He Hs Hf.
  inversion Hf; subst; clear Hf;
    repeat match goal with
           | L : loops _ _ _ |- _ => inversion L; subst; clear L
           end;
    try exact Hs;
    repeat (apply waits_explained_sched; [reflexivity|]); try exact Hs.
  - eapply waits_explained_extend with (ext := [Spawned _ _]);
      [reflexivity | now repeat constructor | | | reflexivity | reflexivity
       | apply Qle_refl | exact Hs];
      cbn; now rewrite app_nil_r.
  - eapply waits_explained_extend with (ext := [Spawned _ _]);
      [reflexivity | now repeat constructor | | | reflexivity | reflexivity
       | apply Qle_refl | exact Hs];
      cbn; now rewrite app_nil_r.
  - unfold employee_start, request. apply waits_explained_trigger_put.
    destruct Hs as (Hw & Hl & Hr & Hg & Hsm). unfold waits_explained.
    cbn [trace wait_times queue_lengths machine put_queue env observe
         set_machine].
    split; [now rewrite sample_waits_snoc, app_nil_r|].
    split; [now rewrite sample_queues_snoc, app_nil_r|].
    split; [|split].
    + apply Forall_app. split.
      * eapply Forall_impl; [|exact Hr]. intros q.
        apply request_logged_extend. apply Qle_refl.
      * constructor; [|constructor]. split; [|apply Qle_refl].
        eexists. apply in_or_app. right. left. reflexivity.
    + eapply Forall_impl; [|exact Hg]. intros x. apply grant_logged_extend.
    + apply Forall_app. split; [|now repeat constructor].
      eapply Forall_impl; [|exact Hsm]. intros o. apply sample_logged_extend.
  - unfold sample.
    eapply waits_explained_extend
      with (s := popped e rest s) (ext := [Sampled _ _ _]);
      [reflexivity | | reflexivity | reflexivity | reflexivity | reflexivity
       | apply Qle_refl | exact Hs].
    constructor; [|constructor]. unfold sample_logged.
    unfold grant_logged in He.
    match goal with
    | E : EmployeeGranted _ _ = callback _ |- _ => rewrite <- E in He
    end.
    destruct He as (ahead & t & H1 & H2 & H3 & H4).
    exists a, ahead, t. cbn [popped set_env trace env now].
    repeat split; try assumption; try (apply in_or_app; now left).
    now rewrite H4.
  - unfold employee_served, release.
    repeat (apply waits_explained_sched; [reflexivity|]).
    eapply waits_explained_extend with (ext := [Departed _ _]);
      [reflexivity | now repeat constructor | | | reflexivity | reflexivity
       | apply Qle_refl | exact Hs];
      cbn; now rewrite app_nil_r.
  - now apply waits_explained_trigger_put.
Qed.

Lemma waits_explained_step s s' :
  env_ok (env s) -> waits_explained s ->
  step s = Next s' \/ step s = Stop s' -> waits_explained s'.
Proof.
  intros [_ Hclock] (Hw & Hl & Hr & Hg & Hsm) H.
  destruct (step_fires _ _ H) as (e & rest & Hq & Hf).
  rewrite Hq in Hg, Hclock.
  inversion Hg as [|? ? He Hrest]; subst.
  inversion Hclock as [|? ? Hle _]; subst.
  apply waits_explained_fires with (cb := callback e) (e := e) (rest := rest)
                                   (s := s);
    [reflexivity | exact He | | exact Hf].
  unfold waits_explained.
  cbn [popped set_env trace wait_times queue_lengths machine env env_queue
       now].
  repeat split; try assumption.
  eapply Forall_impl; [|exact Hr]. intros q [H1 H2]. split; [exact H1|].
  eapply Qle_trans; eauto.
Qed.

Lemma waits_explained_after c r n st s :
  after n (initial c r) = Some (st, s) -> waits_explained s.
Proof.
  apply run_induction.
  - unfold initial.
    repeat (apply waits_explained_sched; [reflexivity|]).
    unfold waits_explained. cbn. repeat split; constructor.
  - intros s1 s2 Hsound _ Hw H.
    apply waits_explained_step with s1; [apply (sound_env _ _ Hsound) | |];
      assumption.
Qed.

Lemma wait_times_nonneg c r n st s :
  after n (initial c r) = Some (st, s) ->
  Forall (fun w => (0 <= w)%Q) (wait_times s).
Proof.
  intros H. destruct (waits_explained_after _ _ _ _ _ H)
    as (Hw & _ & _ & _ & Hsm).
  rewrite Forall_forall in Hsm.
  rewrite Hw. apply Forall_forall. intros w Hin.
  unfold sample_waits in Hin. apply in_flat_map in Hin.
  destruct Hin as (o & Ho & Hin). specialize (Hsm o Ho).
  destruct o; try contradiction. destruct Hin as [<-|[]].
  destruct Hsm as (a & ahead & t & _ & _ & Hle & Heq). lra.
Qed.

(** X7: the two sample lists are exactly the samples logged, in order,
    and every recorded wait time is the clock value at which the entity
    was granted its slot minus the clock value at which it arrived and
    issued its request.  In particular no recorded wait time is
    negative. *)
Theorem wait_is_time_to_grant c r n st s :
  after n (initial c r) = Some (st, s) ->
  wait_times s = sample_waits (trace s) /\
  queue_lengths s = sample_queues (trace s) /\
  (forall name w q,
      In (Sampled name w q) (trace s) -> waited (trace s) name w) /\
  Forall (fun w => (0 <= w)%Q) (wait_times s).
Proof.
  intros H. destruct (waits_explained_after _ _ _ _ _ H)
    as (Hw & Hl & _ & _ & Hsm).
  rewrite Forall_forall in Hsm.
  split; [exact Hw|]. split; [exact Hl|]. split.
  - intros name w q Hin. exact (Hsm _ Hin).
  - now apply wait_times_nonneg with c r n st.
Qed.

Lemma wait_is_time_to_grant_witness :
  wait_times (state_after 16 1 three_arrivals)
  = sample_waits (trace (state_after 16 1 three_arrivals)) /\
  queue_lengths (state_after 16 1 three_arrivals)
  = sample_queues (trace (state_after 16 1 three_arrivals)) /\
  (forall name w q,
      In (Sampled name w q) (trace (state_after 16 1 three_arrivals)) ->
      waited (trace (state_after 16 1 three_arrivals)) name w) /\
  Forall (fun w => (0 <= w)%Q) (wait_times (state_after 16 1 three_arrivals)).
Proof.
  apply (wait_is_time_to_grant 1 three_arrivals 16 Running).
  vm_compute. reflexivity.
Defined.

(** ** The reported metrics *)

Lemma Q_of_nat_nonneg n : (0 <= Q_of_nat n)%Q.
Proof. unfold Q_of_nat, Qle. cbn. lia. Qed.

Lemma Q_of_nat_le n m : n <= m -> (Q_of_nat n <= Q_of_nat m)%Q.
Proof. intros H. unfold Q_of_nat, Qle. cbn. lia. Qed.

Lemma Qdiv_nonneg a b : (0 <= a)%Q -> (0 <= b)%Q -> (0 <= a / b)%Q.
Proof.
  intros Ha Hb. destruct (Qeq_dec b 0) as [E|E].
  - unfold Qdiv. rewrite E. cbn. rewrite Qmult_0_r. apply Qle_refl.
  - apply Qle_shift_div_l; [|now rewrite Qmult_0_l].
    destruct (Qlt_le_dec 0 b) as [L|L]; [exact L|].
    exfalso. apply E. now apply Qle_antisym.
Qed.

Lemma sum_nonneg l a :
  (0 <= a)%Q -> Forall (fun w => (0 <= w)%Q) l ->
  (0 <= fold_left Qplus l a)%Q.
Proof.
  intros Ha Hl. revert a Ha. induction Hl as [|x l Hx Hl IH]; intros a Ha.
  - exact Ha.
  - cbn [fold_left]. apply IH.
    rewrite <- (Qplus_0_r 0). now apply Qplus_le_compat.
Qed.

Lemma served_bounded c r n st s :
  after n (initial c r) = Some (st, s) ->
  served_count s <= length (wait_times s) /\
  length (wait_times s) <= EXPECTED_EMPLOYEES.
Proof.
  intros H. pose proof (sound_after _ _ _ _ _ H) as Hsound.
  destruct (sound_samples _ _ Hsound) as [_ Hs].
  destruct (grants_accounted_after _ _ _ _ _ H) as [Hg _].
  pose proof (f_equal (@length nat) (sound_discipline _ _ Hsound)) as Hd.
  pose proof (Permutation_length (sound_starts _ _ Hsound)) as Hst.
  destruct (sound_generator _ _ Hsound) as (k & Hk & Hle & _).
  rewrite Hk, length_seq in Hst. rewrite !length_app in *. lia.
Qed.

(** X8: the four values a completed scenario reports are never negative,
    at most [EXPECTED_EMPLOYEES] entities are sampled or served, and the
    reported throughput is at most [EXPECTED_EMPLOYEES] per horizon. *)
Theorem reported_metrics_bounded c r s :
  simulate c r = Some s ->
  (0 <= rep_wait_time (report c s))%Q /\
  (0 <= rep_queue_length (report c s))%Q /\
  (0 <= rep_utilization (report c s))%Q /\
  (0 <= rep_throughput (report c s))%Q /\
  (rep_throughput (report c s)
   <= Q_of_nat EXPECTED_EMPLOYEES / SIMULATION_DURATION)%Q /\
  served_count s <= length (wait_times s) /\
  length (wait_times s) <= EXPECTED_EMPLOYEES.
Proof.
  intros Hs. destruct (simulate_after _ _ _ Hs) as [n Hn].
  pose proof (wait_times_nonneg c r n Halted s Hn) as Hw.
  destruct (served_bounded _ _ _ _ _ Hn) as [Hsv Hlen].
  cbn [report rep_wait_time rep_queue_length rep_utilization rep_throughput].
  split; [|split; [|split; [|split; [|split; [|split]]]]].
  - unfold avg_wait_time. destruct (wait_times s) as [|w l] eqn:E;
      [apply Qle_refl|].
    apply Qdiv_nonneg; [|apply Q_of_nat_nonneg].
    unfold sum. apply sum_nonneg; [apply Qle_refl | exact Hw].
  - unfold avg_queue_length. destruct (queue_lengths s) as [|q l];
      [apply Qle_refl|].
    apply Qdiv_nonneg; apply Q_of_nat_nonneg.
  - unfold utilization. apply Qmult_le_0_compat; [|discriminate].
    apply Qdiv_nonneg; [apply Q_of_nat_nonneg|].
    apply Qmult_le_0_compat; [discriminate | apply Q_of_nat_nonneg].
  - unfold throughput. apply Qdiv_nonneg; [apply Q_of_nat_nonneg|].
    discriminate.
  - unfold throughput, Qdiv. apply Qmult_le_compat_r; [|discriminate].
    apply Q_of_nat_le. lia.
  - exact Hsv.
  - exact Hlen.
Qed.

Lemma reported_metrics_bounded_witness :
  (0 <= rep_wait_time (report 1 (final_state 1 three_arrivals)))%Q /\
  (0 <= rep_queue_length (report 1 (final_state 1 three_arrivals)))%Q /\
  (0 <= rep_utilization (report 1 (final_state 1 three_arrivals)))%Q /\
  (0 <= rep_throughput (report 1 (final_state 1 three_arrivals)))%Q /\
  (rep_throughput (report 1 (final_state 1 three_arrivals))
   <= Q_of_nat EXPECTED_EMPLOYEES / SIMULATION_DURATION)%Q /\
  served_count (final_state 1 three_arrivals)
  <= length (wait_times (final_state 1 three_arrivals)) /\
  length (wait_times (final_state 1 three_arrivals)) <= EXPECTED_EMPLOYEES.
Proof.
  apply (reported_metrics_bounded 1 three_arrivals).
  vm_compute. reflexivity.
Defined.

(** ** Use of the random stream *)

Lemma draws_accounted_step r s s' :
  draws_accounted r s -> step s = Next s' \/ step s = Stop s' ->
  draws_accounted r s'.
Proof.
  intros [Hst Hp] H. split; [now rewrite (rnd_step _ _ H)|].
  destruct (step_fires _ _ H) as (e & rest & Hq & Hf). clear H.
  rewrite Hq in Hp. clear Hq. destruct e as [t p i cb]. cbn [callback] in Hf.
  fire Hf; try open_resource; count_all; lia.
Qed.

(** X9: a run reads the random stream in order and never rewinds it: at
    every point the read position has advanced by one draw for every
    inter-arrival gap sampled so far (one per entity spawned, plus the one
    the generator is waiting on) and by two draws for every service time
    sampled (one per recorded sample). *)
Theorem draws_consumed c r n st s :
  after n (initial c r) = Some (st, s) ->
  stream (rnd s) = stream r /\
  pos (rnd s)
  = pos r + length (spawned (trace s))
    + pending is_resume (env_queue (env s))
    + 2 * length (wait_times s).
Proof.
  apply (after_invariant (draws_accounted r)).
  - split; [reflexivity|]. unfold initial.
    cbn [sched set_env env schedule env_queue trace wait_times rnd].
    rewrite !pending_heappush. unfold spawned, pending. cbn. lia.
  - apply draws_accounted_step.
Qed.

Lemma draws_consumed_witness :
  stream (rnd (state_after 16 1 three_arrivals)) = stream three_arrivals /\
  pos (rnd (state_after 16 1 three_arrivals))
  = pos three_arrivals
    + length (spawned (trace (state_after 16 1 three_arrivals)))
    + pending is_resume (env_queue (env (state_after 16 1 three_arrivals)))
    + 2 * length (wait_times (state_after 16 1 three_arrivals)).
Proof.
  apply (draws_consumed 1 three_arrivals 16 Running).
  vm_compute. reflexivity.
Defined.

(** ** The results across a sweep *)




(** ** Prompt grants *)











